(** * GitItDone: the commit squasher of git-worktree-manager

    A shallow embedding of the diff-hunk parser ([parseDiff] in
    [server/index.ts]), of the staging, fixup and rebase routes of the
    server, of the client wrappers in [src/lib/api.ts] and of the
    handlers of [src/components/CommitSquasher.tsx], followed by the
    properties of the specification that were checked against them.

    Conventions.
    - A JavaScript string is a [string]; [s.split('\n')],
      [s.startsWith(p)] and [l.join('\n')] are [split_on], [startsWith]
      and [join].
    - A [number] is a double.  The numbers of this program are integers
      that are never negative, so a number is kept as the integer that the
      double is (a [Z]), with the rounding of [parseInt] and of [++]
      written out in [Num]; [Infinity] is kept as 2^1024, the first value
      that is too large for a double.  A clock reading is an integer
      below 2^53.
    - The version-control tool, the file system and the clock are the
      environment: every call to them is recorded in a trace and answered
      by an oracle. *)

From Stdlib Require Import ZArith Ascii String List Lia Bool.
From Stdlib Require Import DecimalString DecimalZ.
From stdpp Require Import base option list strings gmap.

Local Open Scope string_scope.
Local Open Scope list_scope.
Local Open Scope Z_scope.

(** ** Numbers *)

Module Num.

(** Up to here every integer is a double. *)
Definition safe : Z := 2 ^ 53.

Definition Infinity : Z := 2 ^ 1024.

(** The double with unbounded exponent nearest to the integer [z >= 0]:
    53 bits are kept, the bits below them are rounded to nearest, and a
    tie goes to the even significand. *)
Definition nearest (z : Z) : Z :=
  let e := Z.log2 z - 52 in
  if e <=? 0 then z
  else
    let q := z / 2 ^ e in
    let r := z mod 2 ^ e in
    let half := 2 ^ (e - 1) in
    (if (half <? r) || ((r =? half) && Z.odd q) then q + 1 else q) * 2 ^ e.

(** The number for the integer [z >= 0]; what rounds to 2^1024 or more
    is [Infinity]. *)
Definition of_int (z : Z) : Z :=
  if Infinity <=? nearest z then Infinity else nearest z.

(** [n++] *)
Definition succ (n : Z) : Z := if n =? Infinity then Infinity else of_int (n + 1).

(** The integers that are numbers: the safe ones, and 53 bits shifted
    left, up to [Infinity]. *)
Inductive double : Z -> Prop :=
| double_small n : 0 <= n <= safe -> double n
| double_big m e : 2 ^ 52 <= m < 2 ^ 53 -> 0 < e -> m * 2 ^ e <= Infinity ->
                   double (m * 2 ^ e).

End Num.

#[global] Arguments Num.of_int : simpl never.
#[global] Arguments Num.succ : simpl never.

(** ** Strings *)

Module Str.

(** [s.startsWith(p)] *)
Definition startsWith (s p : string) : bool := String.prefix p s.

(** [s.split(sep)] for a one-character separator: never empty, the empty
    string splits into one empty piece. *)
Fixpoint split_on (sep : ascii) (s : string) : list string :=
  match s with
  | EmptyString => [EmptyString]
  | String c r =>
      if Ascii.eqb c sep then EmptyString :: split_on sep r
      else match split_on sep r with
           | piece :: pieces => String c piece :: pieces
           | [] => [String c EmptyString]
           end
  end.

(** [l.join(sep)] *)
Definition join (sep : string) (l : list string) : string := String.concat sep l.

Definition nl : ascii := "010"%char.
Definition NL : string := String nl EmptyString.

(** [s.substring(0, n)] *)
Definition substring0 (n : nat) (s : string) : string := String.substring 0 n s.

(** [hay.includes(needle)] *)
Fixpoint includes (hay needle : string) : bool :=
  String.prefix needle hay ||
  match hay with
  | EmptyString => false
  | String _ r => includes r needle
  end.

Definition is_digit (c : ascii) : bool :=
  ((48 <=? nat_of_ascii c) && (nat_of_ascii c <=? 57))%nat.

Definition digit_val (c : ascii) : Z := Z.of_nat (nat_of_ascii c) - 48.

(** The integer that the leading decimal digits of [s] denote. *)
Fixpoint parseInt_from (acc : Z) (s : string) : Z :=
  match s with
  | String c r => if is_digit c then parseInt_from (10 * acc + digit_val c) r else acc
  | EmptyString => acc
  end.

(** [parseInt(s)] on the text of a [\d+] capture: the number for the
    integer that the digits denote, which in Node is the double nearest
    to it. *)
Definition parseInt (s : string) : Z := Num.of_int (parseInt_from 0 s).

(** The decimal text of an integer, as a template literal prints it. *)
Definition of_Z (n : Z) : string := NilZero.string_of_int (Z.to_int n).

End Str.

(** ** Regular expressions

    The part of the regular-expression language that the hunk-header
    pattern uses, run the way the JavaScript engine runs it: greedy
    quantifiers that give characters back on failure, and an unanchored
    search from the leftmost position. *)

Module Regex.

Inductive item : Type :=
| Lit (l : string)                       (* literal characters *)
| OptChar (c : ascii)                    (* [c?] *)
| Digits (least : nat) (capture : bool). (* [\d*] or [\d+], maybe a group *)

Fixpoint strip_prefix (p s : string) : option string :=
  match p, s with
  | EmptyString, _ => Some s
  | String a p', String b s' => if Ascii.eqb a b then strip_prefix p' s' else None
  | String _ _, EmptyString => None
  end.

Section Greedy.
Context {R : Type}.
Variable least : nat.
Variable k : string -> string -> option R.

(** Longest run of digits first, then shorter ones; [taken] is what the
    quantifier has consumed so far. *)
Fixpoint greedy_digits (taken s : string) : option R :=
  let stop := if (least <=? String.length taken)%nat then k taken s else None in
  match s with
  | String c r =>
      if Str.is_digit c then
        match greedy_digits (taken +:+ String c EmptyString) r with
        | Some res => Some res
        | None => stop
        end
      else stop
  | EmptyString => stop
  end.
End Greedy.

(** Match the items at the start of [s]; the result is the list of
    captured groups, in order. *)
Fixpoint exec (p : list item) (groups : list string) (s : string) : option (list string) :=
  match p with
  | [] => Some groups
  | Lit l :: p' =>
      match strip_prefix l s with
      | Some r => exec p' groups r
      | None => None
      end
  | OptChar c :: p' =>
      match s with
      | String c' r =>
          if Ascii.eqb c c' then
            match exec p' groups r with
            | Some res => Some res
            | None => exec p' groups s
            end
          else exec p' groups s
      | EmptyString => exec p' groups s
      end
  | Digits least capture :: p' =>
      greedy_digits least
        (fun d r => exec p' (if capture then groups ++ [d] else groups) r)
        EmptyString s
  end.

(** [s.match(p)] without the [g] flag: the first position where the
    pattern matches. *)
Fixpoint search (p : list item) (s : string) : option (list string) :=
  match exec p [] s with
  | Some groups => Some groups
  | None =>
      match s with
      | String _ r => search p r
      | EmptyString => None
      end
  end.

End Regex.

(** ** The diff parser (server/index.ts, parseDiff) *)

Record Hunk : Type := mkHunk {
  header : string;
  lines : list string;
  startLine : Z;
  endLine : Z
}.

(** [/@@ -(\d+),?\d* \+(\d+),?\d* @@/] *)
Definition header_re : list Regex.item :=
  [ Regex.Lit "@@ -"; Regex.Digits 1 true; Regex.OptChar ","; Regex.Digits 0 false;
    Regex.Lit " +"; Regex.Digits 1 true; Regex.OptChar ","; Regex.Digits 0 false;
    Regex.Lit " @@" ].

(** [match ? parseInt(match[2]) : 0]; the groups are kept without the
    whole match, so [match[2]] is the second of them. *)
Definition header_start (line : string) : Z :=
  match Regex.search header_re line with
  | Some groups => Str.parseInt (nth 1 groups EmptyString)
  | None => 0
  end.

Definition is_header (line : string) : bool := Str.startsWith line "@@".

Definition is_added (line : string) : bool :=
  Str.startsWith line "+" && negb (Str.startsWith line "+++").

(** The loop state: the hunks pushed so far and [currentHunk]. *)
Definition ParseState : Type := list Hunk * option Hunk.

Definition flush (st : ParseState) : list Hunk :=
  match st.2 with
  | Some h => st.1 ++ [h]
  | None => st.1
  end.

Definition parse_line (st : ParseState) (line : string) : ParseState :=
  if is_header line then
    let startLine := header_start line in
    (flush st,
     Some {| header := line; lines := [line];
             startLine := startLine; endLine := startLine |})
  else
    match st.2 with
    | Some h =>
        (st.1,
         Some {| header := header h;
                 lines := lines h ++ [line];
                 startLine := startLine h;
                 endLine := if is_added line then Num.succ (endLine h) else endLine h |})
    | None => st
    end.

Definition parseDiff (diffOutput : string) : list Hunk :=
  flush (fold_left parse_line (Str.split_on Str.nl diffOutput) ([], None)).

(** ** Lines before the first header *)

Fixpoint preamble (ls : list string) : list string :=
  match ls with
  | [] => []
  | l :: ls' => if is_header l then [] else l :: preamble ls'
  end.

Fixpoint without_preamble (ls : list string) : list string :=
  match ls with
  | [] => []
  | l :: ls' => if is_header l then ls else without_preamble ls'
  end.

(** The text with every line before its first header line removed. *)
Definition strip_preamble (text : string) : string :=
  Str.join Str.NL (without_preamble (Str.split_on Str.nl text)).

Definition all_lines (hs : list Hunk) : list string := List.concat (map lines hs).

(** How many lines of the hunk start with [+] and not with [+++]. *)
Definition added_count (h : Hunk) : nat := length (List.filter is_added (lines h)).

(** What every hunk built by the loop satisfies: [endLine] is
    [startLine] after one [++] for each added line. *)
Record hunk_ok (h : Hunk) : Prop := {
  ok_head : exists body, lines h = header h :: body;
  ok_header : is_header (header h) = true;
  ok_start : Num.double (startLine h);
  ok_end : endLine h = Nat.iter (added_count h) Num.succ (startLine h)
}.

(** The lines the parsing loop still keeps, seen from state [st]: all of
    them once a hunk is open, those from the first header on before. *)
Definition kept (st : ParseState) (ls : list string) : list string :=
  match st.2 with
  | Some _ => ls
  | None => without_preamble ls
  end.

(** ** Effects

    Code that awaits, throws and catches is a state-passing function
    returning either a value or the message of the [Error] thrown. *)

Inductive Res (A : Type) : Type :=
| Ok (a : A)
| Throw (message : string).
Arguments Ok {A} a.
Arguments Throw {A} message.

Definition Eff (S A : Type) : Type := S -> Res A * S.

Definition ret {S A} (a : A) : Eff S A := fun s => (Ok a, s).

Definition throw {S A} (message : string) : Eff S A := fun s => (Throw message, s).

Definition bind {S A B} (m : Eff S A) (k : A -> Eff S B) : Eff S B :=
  fun s =>
    match m s with
    | (Ok a, s') => k a s'
    | (Throw e, s') => (Throw e, s')
    end.

(** [try { m } catch (error) { handler(error) }] *)
Definition try_catch {S A} (m : Eff S A) (handler : string -> Eff S A) : Eff S A :=
  fun s =>
    match m s with
    | (Ok a, s') => (Ok a, s')
    | (Throw e, s') => handler e s'
    end.

(** [try { m } finally { cleanup }] for a cleanup that cannot throw. *)
Definition finally {S A} (m : Eff S A) (cleanup : S -> S) : Eff S A :=
  fun s => let (r, s') := m s in (r, cleanup s').

(** A promise that is started and looked at later: its outcome as a
    value. *)
Definition settled {S A} (m : Eff S A) : Eff S (Res A) :=
  fun s => let (r, s') := m s in (Ok r, s').

Notation "x <- m ;; k" := (bind m (fun x => k))
  (at level 100, m at next level, right associativity).
Notation "m ;; k" := (bind m (fun _ => k))
  (at level 100, right associativity).

(** [for (const x of l) { await f(x) }] *)
Fixpoint for_each {S A} (l : list A) (f : A -> Eff S unit) : Eff S unit :=
  match l with
  | [] => ret tt
  | x :: l' => f x ;; for_each l' f
  end.

(** ** The environment: git, the file system and the clock *)

Inductive Call : Type :=
| FsWriteFile (path content : string)
| FsUnlink (path : string)
| GitRaw (repo : string) (args : list string)
| GitAdd (repo file : string)
| GitCommit (repo message : string) (files : list string) (options : list (string * string))
| GitStatus (repo : string)
| GitLog (repo : string) (maxCount : Z).

(** The result of [git.status()] and one entry of [git.log()]. *)
Record StatusResult : Type := mkStatusResult {
  st_modified : list string;
  st_created : list string;
  st_deleted : list string;
  st_renamed : list (string * string);   (* from, to *)
  st_staged : list string;
  st_isClean : bool
}.

Record LogEntry : Type := mkLogEntry {
  le_hash : string;
  le_message : string;
  le_author_name : string;
  le_date : string;
  le_refs : string
}.

(** What the outside world decides.  Every oracle sees the calls made so
    far. *)
Record Env : Type := mkEnv {
  now_at : nat -> Z;                       (* the n-th reading of [Date.now()] *)
  fails : list Call -> Call -> option string;  (* the error a call ends with *)
  raw_output : list Call -> string -> list string -> string;
  status_of : list Call -> string -> StatusResult;
  log_of : list Call -> string -> Z -> list LogEntry
}.

(** One change of the index. *)
Inductive Staged : Type :=
| Patch (repo document : string)     (* [git apply --cached] of a document *)
| Whole (repo file : string).        (* [git add] of a path *)

Definition staged_repo (e : Staged) : string :=
  match e with
  | Patch r _ => r
  | Whole r _ => r
  end.

Record World : Type := mkWorld {
  trace : list Call;               (* every call made, oldest first *)
  reads : nat;                     (* how often the clock was read *)
  disk : gmap string string;       (* the files under /tmp *)
  index : list Staged              (* what is staged and not yet committed *)
}.

Definition logged (c : Call) (w : World) : World :=
  mkWorld (trace w ++ [c]) (reads w) (disk w) (index w).

Definition with_disk (d : gmap string string) (w : World) : World :=
  mkWorld (trace w) (reads w) d (index w).

Definition with_index (i : list Staged) (w : World) : World :=
  mkWorld (trace w) (reads w) (disk w) i.

Definition no_such_file (what path : string) : string :=
  "ENOENT: no such file or directory, " +:+ what +:+ " '" +:+ path +:+ "'".

Section Environment.

Context (env : Env).

(** [Date.now()] *)
Definition date_now : Eff World Z :=
  fun w => (Ok (now_at env (reads w)),
            mkWorld (trace w) (S (reads w)) (disk w) (index w)).

(** A call that changes the world by [effect] when it succeeds. *)
Definition perform (c : Call) (effect : World -> World) : Eff World unit :=
  fun w =>
    match fails env (trace w) c with
    | Some message => (Throw message, logged c w)
    | None => (Ok tt, effect (logged c w))
    end.

(** [fs.writeFile(path, content)] *)
Definition fs_writeFile (path content : string) : Eff World unit :=
  perform (FsWriteFile path content) (fun w => with_disk (<[path := content]> (disk w)) w).

(** [fs.unlink(path)] *)
Definition fs_unlink (path : string) : Eff World unit :=
  fun w =>
    match disk w !! path with
    | None => (Throw (no_such_file "unlink" path), logged (FsUnlink path) w)
    | Some _ => perform (FsUnlink path) (fun w => with_disk (delete path (disk w)) w) w
    end.

(** [git.raw(args)]; [apply --cached file] reads the file and stages its
    content, the other commands leave the index alone. *)
Definition git_raw (repo : string) (args : list string) : Eff World string :=
  fun w =>
    let out := raw_output env (trace w) repo args in
    match args with
    | ["apply"; "--cached"; file] =>
        match disk w !! file with
        | None => (Throw (no_such_file "open" file), logged (GitRaw repo args) w)
        | Some document =>
            (perform (GitRaw repo args)
               (fun w => with_index (index w ++ [Patch repo document]) w) ;;
             ret out) w
        end
    | _ => (perform (GitRaw repo args) id ;; ret out) w
    end.

(** [git.add(file)] *)
Definition git_add (repo file : string) : Eff World unit :=
  perform (GitAdd repo file) (fun w => with_index (index w ++ [Whole repo file]) w).

(** [git.commit(message, files, options)]: what was staged in the
    repository goes into the commit. *)
Definition git_commit (repo message : string) (files : list string)
    (options : list (string * string)) : Eff World unit :=
  perform (GitCommit repo message files options)
    (fun w => with_index
                (List.filter (fun e => negb (String.eqb (staged_repo e) repo)) (index w)) w).

(** [git.status()] *)
Definition git_status (repo : string) : Eff World StatusResult :=
  fun w => (perform (GitStatus repo) id ;; ret (status_of env (trace w) repo)) w.

(** [git.log({ maxCount })] *)
Definition git_log (repo : string) (maxCount : Z) : Eff World (list LogEntry) :=
  fun w => (perform (GitLog repo maxCount) id ;; ret (log_of env (trace w) repo maxCount)) w.

End Environment.

(** ** The server (server/index.ts) *)

Inductive StatusKind : Type := modified | created | deleted | renamed.

Record FileStatus : Type := mkFileStatus {
  fs_path : string;
  fs_status : StatusKind;
  fs_from : option string
}.

Record Commit : Type := mkCommit {
  hash : string;
  shortHash : string;
  message : string;
  author : string;
  date : string;
  refs : string
}.

Inductive Payload : Type :=
| ErrorBody (error : string) (details : option string)
| SuccessBody (message : string)
| DiffBody (filePath diff : string) (hunks : list Hunk)
| StatusBody (files : list FileStatus) (staged : list string) (isClean : bool)
| LogBody (commits : list Commit).

Record Response : Type := mkResponse {
  statusCode : Z;
  payload : Payload
}.

(** [response.ok] *)
Definition ok (r : Response) : bool := (200 <=? statusCode r) && (statusCode r <=? 299).

(** A field of a request body is absent or holds a string; as a condition
    it counts when it is a string that is not empty. *)
Definition truthy (field : option string) : bool :=
  match field with
  | Some (String _ _) => true
  | _ => false
  end.

Definition text (field : option string) : string := default EmptyString field.

(** The patch of the stage route, a template literal over four lines. *)
Definition patch_content (filePath hunk : string) : string :=
  "diff --git a/" +:+ filePath +:+ " b/" +:+ filePath +:+ Str.NL +:+
  "--- a/" +:+ filePath +:+ Str.NL +:+
  "+++ b/" +:+ filePath +:+ Str.NL +:+
  hunk.

(** [path.join('/tmp', `patch-${Date.now()}.patch`)] *)
Definition temp_file (now : Z) : string :=
  "/tmp" +:+ "/" +:+ "patch-" +:+ Str.of_Z now +:+ ".patch".

Section Server.

Context (env : Env).

(** POST /api/repo/diff *)
Definition route_diff (repoPath filePath : option string) (staged : bool)
    : Eff World Response :=
  try_catch
    (if negb (truthy repoPath) || negb (truthy filePath) then
       ret (mkResponse 400 (ErrorBody "Repository path and file path are required" None))
     else
       let args := ["diff"] ++ (if staged then ["--cached"] else []) ++
                   ["--unified=3"; text filePath] in
       diffOutput <- git_raw env (text repoPath) args ;;
       let hunks := parseDiff diffOutput in
       ret (mkResponse 200 (DiffBody (text filePath) diffOutput hunks)))
    (fun error =>
       ret (mkResponse 500 (ErrorBody "Failed to get file diff" (Some error)))).

(** The hunk branch of the stage route. *)
Definition stage_hunk (repoPath filePath hunk : string) : Eff World unit :=
  let patchContent := patch_content filePath hunk in
  now <- date_now env ;;
  let tempFile := temp_file now in
  fs_writeFile env tempFile patchContent ;;
  try_catch
    (git_raw env repoPath ["apply"; "--cached"; tempFile] ;;
     fs_unlink env tempFile)
    (fun error =>
       fs_unlink env tempFile ;;
       throw error).

(** POST /api/repo/stage *)
Definition route_stage (repoPath filePath hunk : option string) : Eff World Response :=
  try_catch
    (if negb (truthy repoPath) || negb (truthy filePath) then
       ret (mkResponse 400 (ErrorBody "Repository path and file path are required" None))
     else
       (if truthy hunk then stage_hunk (text repoPath) (text filePath) (text hunk)
        else git_add env (text repoPath) (text filePath)) ;;
       ret (mkResponse 200
              (SuccessBody (if truthy hunk then "Hunk staged successfully"
                            else "File staged successfully"))))
    (fun error =>
       ret (mkResponse 500 (ErrorBody "Failed to stage changes" (Some error)))).

(** POST /api/repo/fixup *)
Definition route_fixup (repoPath targetCommit : option string) : Eff World Response :=
  try_catch
    (if negb (truthy repoPath) || negb (truthy targetCommit) then
       ret (mkResponse 400 (ErrorBody "Repository path and target commit are required" None))
     else
       git_commit env (text repoPath) ("fixup! " +:+ text targetCommit) []
         [("--fixup", text targetCommit)] ;;
       ret (mkResponse 200 (SuccessBody "Fixup commit created successfully")))
    (fun error =>
       ret (mkResponse 500 (ErrorBody "Failed to create fixup commit" (Some error)))).

(** POST /api/repo/rebase *)
Definition route_rebase (repoPath targetCommit : option string) : Eff World Response :=
  try_catch
    (if negb (truthy repoPath) || negb (truthy targetCommit) then
       ret (mkResponse 400 (ErrorBody "Repository path and target commit are required" None))
     else
       git_raw env (text repoPath)
         ["rebase"; "-i"; "--autosquash"; text targetCommit +:+ "^"] ;;
       ret (mkResponse 200 (SuccessBody "Rebase completed successfully")))
    (fun error =>
       ret (mkResponse 500 (ErrorBody "Failed to rebase" (Some error)))).

(** POST /api/repo/status *)
Definition route_status (repoPath : option string) : Eff World Response :=
  try_catch
    (if negb (truthy repoPath) then
       ret (mkResponse 400 (ErrorBody "Repository path is required" None))
     else
       status <- git_status env (text repoPath) ;;
       ret (mkResponse 200
              (StatusBody
                 (map (fun f => mkFileStatus f modified None) (st_modified status) ++
                  map (fun f => mkFileStatus f created None) (st_created status) ++
                  map (fun f => mkFileStatus f deleted None) (st_deleted status) ++
                  map (fun f => mkFileStatus f.2 renamed (Some f.1)) (st_renamed status))
                 (st_staged status)
                 (st_isClean status))))
    (fun error =>
       ret (mkResponse 500 (ErrorBody "Failed to get repository status" (Some error)))).

(** POST /api/repo/log *)
Definition route_log (repoPath : option string) (maxCount : Z) : Eff World Response :=
  try_catch
    (if negb (truthy repoPath) then
       ret (mkResponse 400 (ErrorBody "Repository path is required" None))
     else
       log <- git_log env (text repoPath) maxCount ;;
       ret (mkResponse 200
              (LogBody
                 (map (fun commit =>
                         mkCommit (le_hash commit)
                                  (Str.substring0 7 (le_hash commit))
                                  (le_message commit)
                                  (le_author_name commit)
                                  (le_date commit)
                                  (le_refs commit))
                      log))))
    (fun error =>
       ret (mkResponse 500 (ErrorBody "Failed to get commit log" (Some error)))).

End Server.

(** ** The client wrappers (src/lib/api.ts)

    [fetch] reaches the route of the server with the fields of the JSON
    body; a field that is [undefined] is absent from the body.  The
    wrappers are embedded for requests that reach their route and whose
    answer comes back as JSON: a [fetch] that rejects, and an answer
    given by the body parser of the server in place of the route, are
    not part of the embedding. *)

(** [error.error || fallback] on the body of a failed response *)
Definition error_or (p : Payload) (fallback : string) : string :=
  match p with
  | ErrorBody (String c e) _ => String c e
  | _ => fallback
  end.

(** Fields read from a JSON body. *)
Definition body_files (p : Payload) : list FileStatus :=
  match p with StatusBody files _ _ => files | _ => [] end.

Definition body_commits (p : Payload) : list Commit :=
  match p with LogBody commits => commits | _ => [] end.

Definition body_filePath (p : Payload) : string :=
  match p with DiffBody filePath _ _ => filePath | _ => EmptyString end.

Definition body_hunks (p : Payload) : list Hunk :=
  match p with DiffBody _ _ hunks => hunks | _ => [] end.

Section Api.

Context (env : Env).

(** [if (!response.ok) throw new Error(...); return response.json()] *)
Definition json_or_throw (fallback : string) (response : Response) : Eff World Payload :=
  if negb (ok response) then throw (error_or (payload response) fallback)
  else ret (payload response).

Definition api_getStatus (repoPath : string) : Eff World Payload :=
  response <- route_status env (Some repoPath) ;;
  json_or_throw "Failed to get repository status" response.

Definition api_getLog (repoPath : string) (maxCount : Z) : Eff World Payload :=
  response <- route_log env (Some repoPath) maxCount ;;
  json_or_throw "Failed to get commit log" response.

Definition api_getDiff (repoPath filePath : string) (staged : bool) : Eff World Payload :=
  response <- route_diff env (Some repoPath) (Some filePath) staged ;;
  json_or_throw "Failed to get file diff" response.

Definition api_stageChanges (repoPath filePath : string) (hunk : option string)
    : Eff World Payload :=
  response <- route_stage env (Some repoPath) (Some filePath) hunk ;;
  json_or_throw "Failed to stage changes" response.

Definition api_createFixup (repoPath targetCommit : string) : Eff World Payload :=
  response <- route_fixup env (Some repoPath) (Some targetCommit) ;;
  json_or_throw "Failed to create fixup commit" response.

Definition api_rebase (repoPath targetCommit : string) : Eff World Payload :=
  response <- route_rebase env (Some repoPath) (Some targetCommit) ;;
  json_or_throw "Failed to rebase" response.

End Api.

(** ** The component (src/components/CommitSquasher.tsx) *)

Inductive Step : Type := select_files | select_hunks | select_commit | confirm.

(** The state cells of the component.  [selectedHunks] is a [Set] of
    indices: no duplicates, in the order in which they were added, which
    is the order [for ... of] visits them in. *)
Record Squasher : Type := mkSquasher {
  loading : bool;
  error : option string;
  success : option string;
  step : Step;
  files : list FileStatus;
  commits : list Commit;
  selectedFile : option string;
  selectedHunks : list nat;
  selectedCommit : option string;
  currentDiff : option (string * list Hunk)
}.

Definition initial : Squasher :=
  mkSquasher false None None select_files [] [] None [] None None.

Definition setLoading (v : bool) (s : Squasher) : Squasher :=
  mkSquasher v (error s) (success s) (step s) (files s) (commits s)
             (selectedFile s) (selectedHunks s) (selectedCommit s) (currentDiff s).

Definition setError (v : option string) (s : Squasher) : Squasher :=
  mkSquasher (loading s) v (success s) (step s) (files s) (commits s)
             (selectedFile s) (selectedHunks s) (selectedCommit s) (currentDiff s).

Definition setSuccess (v : option string) (s : Squasher) : Squasher :=
  mkSquasher (loading s) (error s) v (step s) (files s) (commits s)
             (selectedFile s) (selectedHunks s) (selectedCommit s) (currentDiff s).

Definition setStep (v : Step) (s : Squasher) : Squasher :=
  mkSquasher (loading s) (error s) (success s) v (files s) (commits s)
             (selectedFile s) (selectedHunks s) (selectedCommit s) (currentDiff s).

Definition setFiles (v : list FileStatus) (s : Squasher) : Squasher :=
  mkSquasher (loading s) (error s) (success s) (step s) v (commits s)
             (selectedFile s) (selectedHunks s) (selectedCommit s) (currentDiff s).

Definition setCommits (v : list Commit) (s : Squasher) : Squasher :=
  mkSquasher (loading s) (error s) (success s) (step s) (files s) v
             (selectedFile s) (selectedHunks s) (selectedCommit s) (currentDiff s).

Definition setSelectedFile (v : option string) (s : Squasher) : Squasher :=
  mkSquasher (loading s) (error s) (success s) (step s) (files s) (commits s)
             v (selectedHunks s) (selectedCommit s) (currentDiff s).

Definition setSelectedHunks (v : list nat) (s : Squasher) : Squasher :=
  mkSquasher (loading s) (error s) (success s) (step s) (files s) (commits s)
             (selectedFile s) v (selectedCommit s) (currentDiff s).

Definition setSelectedCommit (v : option string) (s : Squasher) : Squasher :=
  mkSquasher (loading s) (error s) (success s) (step s) (files s) (commits s)
             (selectedFile s) (selectedHunks s) v (currentDiff s).

Definition setCurrentDiff (v : option (string * list Hunk)) (s : Squasher) : Squasher :=
  mkSquasher (loading s) (error s) (success s) (step s) (files s) (commits s)
             (selectedFile s) (selectedHunks s) (selectedCommit s) v.

(** A handler runs over the state cells and the world. *)
Definition App : Type := Squasher * World.

Definition set (f : Squasher -> Squasher) : Eff App unit :=
  fun a => (Ok tt, (f a.1, a.2)).

Definition call {A} (m : Eff World A) : Eff App A :=
  fun a => let (r, w) := m a.2 in (r, (a.1, w)).

(** A handler that has caught everything ends in a state. *)
Definition run (m : Eff App unit) (a : App) : App := (m a).2.

Definition TypeError_lines : string :=
  "Cannot read properties of undefined (reading 'lines')".

Section Component.

Context (env : Env) (repoPath : string).

(** [loadData]: the two requests of [Promise.all] are issued in the
    order written; of two failures the embedding shows that of the
    status request. *)
Definition loadData : Eff App unit :=
  set (setLoading true) ;;
  set (setError None) ;;
  finally
    (try_catch
       (statusData <- call (settled (api_getStatus env repoPath)) ;;
        logData <- call (settled (api_getLog env repoPath 50)) ;;
        match statusData, logData with
        | Throw e, _ => throw e
        | Ok _, Throw e => throw e
        | Ok statusData, Ok logData =>
            set (setFiles (body_files statusData)) ;;
            set (setCommits (body_commits logData)) ;;
            if (length (body_files statusData) =? 0)%nat then
              set (setError (Some "No changed files in working directory"))
            else ret tt
        end)
       (fun err => set (setError (Some err))))
    (fun a => (setLoading false a.1, a.2)).

Definition handleFileSelect (filePath : string) : Eff App unit :=
  set (setSelectedFile (Some filePath)) ;;
  set (setSelectedHunks []) ;;
  set (setLoading true) ;;
  set (setError None) ;;
  finally
    (try_catch
       (diffData <- call (api_getDiff env repoPath filePath false) ;;
        set (setCurrentDiff (Some (body_filePath diffData, body_hunks diffData))) ;;
        set (setStep select_hunks))
       (fun err => set (setError (Some err))))
    (fun a => (setLoading false a.1, a.2)).

(** [next.has(i) ? next.delete(i) : next.add(i)] on a copy of the set *)
Definition toggle (hunkIndex : nat) (prev : list nat) : list nat :=
  if existsb (Nat.eqb hunkIndex) prev
  then List.filter (fun i => negb (Nat.eqb hunkIndex i)) prev
  else prev ++ [hunkIndex].

Definition handleHunkToggle (hunkIndex : nat) : Eff App unit :=
  set (fun s => setSelectedHunks (toggle hunkIndex (selectedHunks s)) s).

Definition handleCommitSelect (commitHash : string) : Eff App unit :=
  set (setSelectedCommit (Some commitHash)).

(** The staging part of [handleSquash], for the values of the state
    cells that the handler was created with. *)
Definition stage_selection (s : Squasher) : Eff World unit :=
  match currentDiff s with
  | Some (_, hunks) =>
      if (0 <? length (selectedHunks s))%nat then
        for_each (selectedHunks s) (fun hunkIndex =>
          match hunks !! hunkIndex with
          | Some hunk =>
              let hunkContent := Str.join Str.NL (lines hunk) in
              api_stageChanges env repoPath (text (selectedFile s)) (Some hunkContent) ;;
              ret tt
          | None => throw TypeError_lines
          end)
      else api_stageChanges env repoPath (text (selectedFile s)) None ;; ret tt
  | None => api_stageChanges env repoPath (text (selectedFile s)) None ;; ret tt
  end.

Definition handleSquash : Eff App unit :=
  fun a =>
    let s := a.1 in
    if negb (truthy (selectedFile s)) || negb (truthy (selectedCommit s)) then
      set (setError (Some "Please select a file and target commit")) a
    else
      (set (setLoading true) ;;
       set (setError None) ;;
       set (setSuccess None) ;;
       finally
         (try_catch
            (call (stage_selection s) ;;
             call (api_createFixup env repoPath (text (selectedCommit s))) ;;
             call (api_rebase env repoPath (text (selectedCommit s))) ;;
             set (setSuccess
                    (Some ("Successfully squashed changes into commit " +:+
                           Str.substring0 7 (text (selectedCommit s))))) ;;
             set (setStep select_files) ;;
             set (setSelectedFile None) ;;
             set (setSelectedHunks []) ;;
             set (setSelectedCommit None) ;;
             set (setCurrentDiff None) ;;
             loadData)
            (fun err => set (setError (Some err))))
         (fun a => (setLoading false a.1, a.2))) a.

(** The first button under the file list; it is rendered once the step
    is past the file list and a diff is loaded. *)
Definition primary_disabled (s : Squasher) : bool :=
  loading s ||
  (match step s with select_commit => negb (truthy (selectedCommit s)) | _ => false end) ||
  (match step s with
   | select_hunks => (length (selectedHunks s) =? 0)%nat
   | _ => false
   end).

Definition primary_shown (s : Squasher) : bool :=
  match step s, currentDiff s with
  | select_files, _ => false
  | _, None => false
  | _, Some _ => true
  end.

Definition click_primary : Eff App unit :=
  fun a =>
    if primary_shown a.1 && negb (primary_disabled a.1) then
      match step a.1 with
      | select_hunks => set (setStep select_commit) a
      | select_commit => handleSquash a
      | _ => ret tt a
      end
    else ret tt a.

End Component.

(** ** Worlds and environments of the scenarios *)

Definition malformed_text : string :=
  "@@ garbage @@" +:+ Str.NL +:+ "+line" +:+ Str.NL.

(** A header whose start is 2^53, and one added line. *)
Definition huge_start_text : string :=
  "@@ -1 +9007199254740992 @@" +:+ Str.NL +:+ "+a".

Definition two_hunk_text : string :=
  Str.join Str.NL
    [ "diff --git a/a.txt b/a.txt"; "index 1111111..2222222 100644";
      "--- a/a.txt"; "+++ b/a.txt";
      "@@ -1,3 +1,4 @@"; " one"; "+one and a half"; " two"; " three";
      "@@ -10,3 +11,3 @@ ten"; " eleven"; "-twelve"; "+dozen"; " thirteen"; "" ].

Definition empty_world : World := mkWorld [] 0 ∅ [].

Definition clean_status : StatusResult := mkStatusResult [] [] [] [] [] true.

Definition is_apply (c : Call) : bool :=
  match c with
  | GitRaw _ ("apply" :: _) => true
  | _ => false
  end.

Definition is_commit (c : Call) : bool :=
  match c with
  | GitCommit _ _ _ _ => true
  | _ => false
  end.

Definition is_rebase (c : Call) : bool :=
  match c with
  | GitRaw _ ("rebase" :: _) => true
  | _ => false
  end.

(** Nothing fails, the clock advances by one millisecond per reading and
    [git diff] prints [two_hunk_text]. *)
Definition calm : Env :=
  mkEnv (fun n => 1700000000000 + Z.of_nat n)
        (fun _ _ => None)
        (fun _ _ args => match args with "diff" :: _ => two_hunk_text | _ => "" end)
        (fun _ _ => clean_status)
        (fun _ _ _ => []).

(** As [calm], but every [git apply] after the first one fails. *)
Definition second_apply_fails : Env :=
  mkEnv (now_at calm)
        (fun history c =>
           if is_apply c && existsb is_apply history
           then Some "error: patch failed: a.txt:10"
           else None)
        (raw_output calm) (status_of calm) (log_of calm).

(** As [calm], but [git apply] fails and so does removing a file. *)
Definition apply_and_unlink_fail : Env :=
  mkEnv (now_at calm)
        (fun _ c =>
           match c with
           | GitRaw _ ("apply" :: _) => Some "error: patch does not apply"
           | FsUnlink _ => Some "EPERM: operation not permitted, unlink"
           | _ => None
           end)
        (raw_output calm) (status_of calm) (log_of calm).

(** As [calm], but the clock reads the same millisecond every time. *)
Definition frozen_clock : Env :=
  mkEnv (fun _ => 1700000000000)
        (fails calm) (raw_output calm) (status_of calm) (log_of calm).

(** The user picks a.txt, ticks the hunks [picks], continues, picks the
    commit and presses the squash button. *)
Definition squash_session (env : Env) (repoPath : string) (picks : list nat)
    (commit : string) : Eff App unit :=
  handleFileSelect env repoPath "a.txt" ;;
  for_each picks (handleHunkToggle) ;;
  click_primary env repoPath ;;
  handleCommitSelect commit ;;
  click_primary env repoPath.

(** ** The patch as the specification words it

    The three lines of the file pair followed by the lines of the hunk,
    joined by newlines. *)
Definition patch_lines (p : string) (h : Hunk) : list string :=
  [ "diff --git a/" +:+ p +:+ " b/" +:+ p; "--- a/" +:+ p; "+++ b/" +:+ p ] ++ lines h.

Definition patch_document (p : string) (h : Hunk) : string :=
  Str.join Str.NL (patch_lines p h).

(** The calls of one pass through the hunk branch of the stage route. *)
Definition write_call (env : Env) (file hunk : string) (w : World) : Call :=
  FsWriteFile (temp_file (now_at env (reads w))) (patch_content file hunk).

Definition apply_call (env : Env) (repo : string) (w : World) : Call :=
  GitRaw repo ["apply"; "--cached"; temp_file (now_at env (reads w))].

Definition unlink_call (env : Env) (w : World) : Call :=
  FsUnlink (temp_file (now_at env (reads w))).

(** The paths written to, in order. *)
Definition written_paths (t : list Call) : list string :=
  omap (fun c => match c with FsWriteFile path _ => Some path | _ => None end) t.

(** The calls that stage the document of hunk [h] when the clock has
    been read [n] times: the document is written to the file named by the
    clock, that file is applied to the index, and it is removed. *)
Definition stage_triple (env : Env) (repo file : string) (h : Hunk) (n : nat) : list Call :=
  let tempFile := temp_file (now_at env n) in
  [ FsWriteFile tempFile (patch_document file h);
    GitRaw repo ["apply"; "--cached"; tempFile];
    FsUnlink tempFile ].

(** The calls that stage the documents of the hunks [hs], one after the
    other. *)
Fixpoint staging_calls (env : Env) (repo file : string) (hs : list Hunk) (n : nat)
    : list Call :=
  match hs with
  | [] => []
  | h :: hs' => stage_triple env repo file h n ++ staging_calls env repo file hs' (S n)
  end.

(** The second removal of the file of the last of [hs]: the stage route
    tries the removal again when it has failed. *)
Definition second_unlink (env : Env) (hs : list Hunk) (n : nat) : Call :=
  FsUnlink (temp_file (now_at env (n + length hs - 1))).

(** The documents of the hunks [hs] as entries of the index. *)
Definition documents (repo file : string) (hs : list Hunk) : list Staged :=
  map (fun h => Patch repo (patch_document file h)) hs.

(** The state cells after the squash handler has started, and after it
    has failed with [e]. *)
Definition squash_started (s : Squasher) : Squasher :=
  setSuccess None (setError None (setLoading true s)).

Definition squash_failed (e : string) (s : Squasher) : Squasher :=
  setLoading false (setError (Some e) (squash_started s)).

(** A state in which a.txt and the commit abc1234 are chosen and [picks]
    are ticked among [hunks]. *)
Definition chosen (hunks : list Hunk) (picks : list nat) : Squasher :=
  mkSquasher false None None select_commit [] [] (Some "a.txt") picks (Some "abc1234")
             (Some ("a.txt", hunks)).

(** The state cells after a squash into [commit] went through, before
    the data is loaded again. *)
Definition squash_done (commit : string) (s : Squasher) : Squasher :=
  setCurrentDiff None
    (setSelectedCommit None
       (setSelectedHunks []
          (setSelectedFile None
             (setStep select_files
                (setSuccess
                   (Some ("Successfully squashed changes into commit " +:+
                          Str.substring0 7 commit))
                   (squash_started s)))))).

(** Nothing fails in [env]. *)
Definition never_fails (env : Env) : Prop := forall history c, fails env history c = None.

(** The world after the hunk branch of the stage route went through. *)
Definition after_stage (env : Env) (repo file hunk : string) (w : World) : World :=
  mkWorld (trace w ++ [write_call env file hunk w; apply_call env repo w; unlink_call env w])
          (S (reads w))
          (delete (temp_file (now_at env (reads w)))
                  (<[temp_file (now_at env (reads w)) := patch_content file hunk]> (disk w)))
          (index w ++ [Patch repo (patch_content file hunk)]).

Definition is_fixup_or_rebase (c : Call) : bool := is_commit c || is_rebase c.

(** The two hunks of [two_hunk_text]. *)
Definition hunk_one : Hunk :=
  mkHunk "@@ -1,3 +1,4 @@"
         ["@@ -1,3 +1,4 @@"; " one"; "+one and a half"; " two"; " three"] 1 2.

Definition hunk_ten : Hunk :=
  mkHunk "@@ -10,3 +11,3 @@ ten"
         ["@@ -10,3 +11,3 @@ ten"; " eleven"; "-twelve"; "+dozen"; " thirteen"; ""] 11 12.

(** ** More string operations *)

Module Text.

(** The white space of [trim] among the characters below 256. *)
Definition is_space (c : ascii) : bool :=
  let n := nat_of_ascii c in
  ((9 <=? n) && (n <=? 13) || (n =? 32) || (n =? 160))%nat.

Fixpoint trimStart (s : string) : string :=
  match s with
  | String c r => if is_space c then trimStart r else s
  | EmptyString => EmptyString
  end.

Fixpoint trimEnd (s : string) : string :=
  match s with
  | String c r =>
      match trimEnd r with
      | EmptyString => if is_space c then EmptyString else String c EmptyString
      | r' => String c r'
      end
  | EmptyString => EmptyString
  end.

(** [s.trim()] *)
Definition trim (s : string) : string := trimEnd (trimStart s).

Fixpoint drop (n : nat) (s : string) : string :=
  match n, s with
  | O, _ => s
  | S n', String _ r => drop n' r
  | S _, EmptyString => EmptyString
  end.

(** [s.replace(pattern, replacement)] for a pattern that is a string and
    a replacement without [$]: the first occurrence only. *)
Fixpoint replace (pattern replacement s : string) : string :=
  if String.prefix pattern s then replacement +:+ drop (String.length pattern) s
  else match s with
       | String c r => String c (replace pattern replacement r)
       | EmptyString => EmptyString
       end.

Definition space : ascii := " "%char.

End Text.

(** ** The worktree list parser (server/index.ts, parseWorktrees) *)

(** [Partial<WorktreeInfo>]: every field may be missing. *)
Record Worktree : Type := mkWorktree {
  wt_path : option string;
  wt_branch : option string;
  wt_commit : option string;
  wt_bare : option bool;
  wt_detached : option bool;
  wt_prunable : option string
}.

Definition no_worktree : Worktree := mkWorktree None None None None None None.

(** [switch (key)] with its six cases; another key changes nothing. *)
Definition worktree_field (key value : string) (cur : Worktree) : Worktree :=
  if String.eqb key "worktree" then
    mkWorktree (Some value) (wt_branch cur) (wt_commit cur) (wt_bare cur)
               (wt_detached cur) (wt_prunable cur)
  else if String.eqb key "HEAD" then
    mkWorktree (wt_path cur) (wt_branch cur) (Some value) (wt_bare cur)
               (wt_detached cur) (wt_prunable cur)
  else if String.eqb key "branch" then
    mkWorktree (wt_path cur) (Some (Text.replace "refs/heads/" "" value)) (wt_commit cur)
               (wt_bare cur) (wt_detached cur) (wt_prunable cur)
  else if String.eqb key "bare" then
    mkWorktree (wt_path cur) (wt_branch cur) (wt_commit cur) (Some true)
               (wt_detached cur) (wt_prunable cur)
  else if String.eqb key "detached" then
    mkWorktree (wt_path cur) (wt_branch cur) (wt_commit cur) (wt_bare cur)
               (Some true) (wt_prunable cur)
  else if String.eqb key "prunable" then
    mkWorktree (wt_path cur) (wt_branch cur) (wt_commit cur) (wt_bare cur)
               (wt_detached cur) (Some value)
  else cur.

(** The loop state: [worktrees] and [currentWorktree]. *)
Definition WorktreeState : Type := list Worktree * Worktree.

(** [if (currentWorktree.path) { worktrees.push(...); currentWorktree = {} }] *)
Definition push_worktree (st : WorktreeState) : WorktreeState :=
  if truthy (wt_path st.2) then (st.1 ++ [st.2], no_worktree) else st.

Definition worktree_line (st : WorktreeState) (line : string) : WorktreeState :=
  match Text.trim line with
  | EmptyString => push_worktree st
  | _ =>
      match Str.split_on Text.space line with
      | key :: valueParts =>
          (st.1, worktree_field key (Str.join " " valueParts) st.2)
      | [] => st
      end
  end.

Definition parseWorktrees (output : string) : list Worktree :=
  let st := fold_left worktree_line (Str.split_on Str.nl output) ([], no_worktree) in
  if truthy (wt_path st.2) then st.1 ++ [st.2] else st.1.

(** What [git worktree list --porcelain] prints for one worktree: the
    path, then the attributes that are present, then an empty line. *)
Definition porcelain (w : Worktree) : list string :=
  [ "worktree " +:+ text (wt_path w) ] ++
  match wt_commit w with Some c => [ "HEAD " +:+ c ] | None => [] end ++
  match wt_branch w with Some b => [ "branch refs/heads/" +:+ b ] | None => [] end ++
  match wt_bare w with Some _ => [ "bare" ] | None => [] end ++
  match wt_detached w with Some _ => [ "detached" ] | None => [] end ++
  match wt_prunable w with Some r => [ "prunable " +:+ r ] | None => [] end ++
  [ "" ].

(** The whole listing: every line is ended by a newline. *)
Definition porcelain_text (ws : list Worktree) : string :=
  Str.join Str.NL (List.concat (map porcelain ws) ++ [""]).

Definition no_newline (s : string) : Prop := Str.split_on Str.nl s = [s].

Definition opt_no_newline (o : option string) : Prop :=
  match o with Some s => no_newline s | None => True end.

Definition flag_ok (o : option bool) : Prop := o = None \/ o = Some true.

(** A worktree as the listing can describe it: a path that is not empty,
    texts without newline, flags that are set or absent. *)
Record printable (w : Worktree) : Prop := {
  pr_path : exists p, wt_path w = Some p /\ p <> "" /\ no_newline p;
  pr_branch : opt_no_newline (wt_branch w);
  pr_commit : opt_no_newline (wt_commit w);
  pr_bare : flag_ok (wt_bare w);
  pr_detached : flag_ok (wt_detached w);
  pr_prunable : opt_no_newline (wt_prunable w)
}.

(** ** The worktree routes (server/index.ts) *)

Inductive WorktreePayload : Type :=
| WtError (error : string) (details : option string)
| WtList (worktrees : list Worktree)
| WtAdded (message path branch : string)
| WtRemoved (message : string).

Record WorktreeResponse : Type := mkWorktreeResponse {
  wt_statusCode : Z;
  wt_payload : WorktreePayload
}.

Section WorktreeRoutes.

Context (env : Env).

(** POST /api/worktree/list *)
Definition route_worktree_list (repoPath : option string) : Eff World WorktreeResponse :=
  try_catch
    (if negb (truthy repoPath) then
       ret (mkWorktreeResponse 400 (WtError "Repository path is required" None))
     else
       worktreeOutput <- git_raw env (text repoPath) ["worktree"; "list"; "--porcelain"] ;;
       let worktrees := parseWorktrees worktreeOutput in
       ret (mkWorktreeResponse 200 (WtList worktrees)))
    (fun error =>
       ret (mkWorktreeResponse 500 (WtError "Failed to list worktrees" (Some error)))).

(** The arguments of [git worktree add], built by three pushes. *)
Definition worktree_add_args (worktreePath branch : string) (createBranch : bool)
    : list string :=
  let args := ["worktree"; "add"] in
  let args := if createBranch then args ++ ["-b"; branch] else args in
  let args := args ++ [worktreePath] in
  if negb createBranch then args ++ [branch] else args.

(** POST /api/worktree/add *)
Definition route_worktree_add (repoPath worktreePath branch : option string)
    (createBranch : bool) : Eff World WorktreeResponse :=
  try_catch
    (if negb (truthy repoPath) || negb (truthy worktreePath) || negb (truthy branch) then
       ret (mkWorktreeResponse 400
              (WtError "Repository path, worktree path, and branch are required" None))
     else
       git_raw env (text repoPath)
         (worktree_add_args (text worktreePath) (text branch) createBranch) ;;
       ret (mkWorktreeResponse 200
              (WtAdded ("Worktree created at " +:+ text worktreePath)
                       (text worktreePath) (text branch))))
    (fun error =>
       ret (mkWorktreeResponse 500 (WtError "Failed to create worktree" (Some error)))).

(** The arguments of [git worktree remove]. *)
Definition worktree_remove_args (worktreePath : string) (force : bool) : list string :=
  let args := ["worktree"; "remove"] in
  let args := if force then args ++ ["--force"] else args in
  args ++ [worktreePath].

(** POST /api/worktree/remove *)
Definition route_worktree_remove (repoPath worktreePath : option string) (force : bool)
    : Eff World WorktreeResponse :=
  try_catch
    (if negb (truthy repoPath) || negb (truthy worktreePath) then
       ret (mkWorktreeResponse 400
              (WtError "Repository path and worktree path are required" None))
     else
       git_raw env (text repoPath) (worktree_remove_args (text worktreePath) force) ;;
       ret (mkWorktreeResponse 200
              (WtRemoved ("Worktree removed from " +:+ text worktreePath))))
    (fun error =>
       ret (mkWorktreeResponse 500 (WtError "Failed to remove worktree" (Some error)))).

End WorktreeRoutes.

(** The wrappers of the worktree routes (src/lib/api.ts). *)

Definition wt_ok (r : WorktreeResponse) : bool :=
  (200 <=? wt_statusCode r) && (wt_statusCode r <=? 299).

Definition wt_error_or (p : WorktreePayload) (fallback : string) : string :=
  match p with
  | WtError (String c e) _ => String c e
  | _ => fallback
  end.

Definition wt_json_or_throw (fallback : string) (response : WorktreeResponse)
    : Eff World WorktreePayload :=
  if negb (wt_ok response) then throw (wt_error_or (wt_payload response) fallback)
  else ret (wt_payload response).

Definition api_getWorktrees (env : Env) (repoPath : string) : Eff World WorktreePayload :=
  response <- route_worktree_list env (Some repoPath) ;;
  wt_json_or_throw "Failed to list worktrees" response.

Definition api_createWorktree (env : Env) (repoPath path branch : string)
    (createBranch : bool) : Eff World WorktreePayload :=
  response <- route_worktree_add env (Some repoPath) (Some path) (Some branch) createBranch ;;
  wt_json_or_throw "Failed to create worktree" response.

Definition api_removeWorktree (env : Env) (repoPath path : string) (force : bool)
    : Eff World WorktreePayload :=
  response <- route_worktree_remove env (Some repoPath) (Some path) force ;;
  wt_json_or_throw "Failed to remove worktree" response.

(** A route has answered: no exception left it, and the status is one of
    the three the server uses. *)
Definition answered (r : Res Response) : Prop :=
  exists response, r = Ok response /\
                   (statusCode response = 200 \/ statusCode response = 400 \/
                    statusCode response = 500).

Definition wt_answered (r : Res WorktreeResponse) : Prop :=
  exists response, r = Ok response /\
                   (wt_statusCode response = 200 \/ wt_statusCode response = 400 \/
                    wt_statusCode response = 500).

(** The answers to a request that lacks a field, and to one whose git
    call failed. *)
Definition bad_request (error : string) : Response := mkResponse 400 (ErrorBody error None).

Definition server_error (error details : string) : Response :=
  mkResponse 500 (ErrorBody error (Some details)).

Definition wt_bad_request (error : string) : WorktreeResponse :=
  mkWorktreeResponse 400 (WtError error None).

Definition wt_server_error (error details : string) : WorktreeResponse :=
  mkWorktreeResponse 500 (WtError error (Some details)).

Definition diff_args (filePath : string) (staged : bool) : list string :=
  ["diff"] ++ (if staged then ["--cached"] else []) ++ ["--unified=3"; filePath].

(** ** The diff viewer (DiffViewer) *)

Inductive LineClass : Type := foreground | green | red | blue.

(** The colour of a body line. *)
Definition lineClass (line : string) : LineClass :=
  if Str.startsWith line "+" && negb (Str.startsWith line "+++") then green
  else if Str.startsWith line "-" && negb (Str.startsWith line "---") then red
  else if Str.startsWith line "@@" then blue
  else foreground.

(** The rows under the header of a hunk: [hunk.lines.slice(1)], each with
    its colour and the text [line || " "]. *)
Definition shown_rows (hunk : Hunk) : list (LineClass * string) :=
  map (fun line => (lineClass line, if truthy (Some line) then line else " "))
      (List.tl (lines hunk)).

Definition is_green (row : LineClass * string) : bool :=
  match row.1 with green => true | _ => false end.

(** ** The user's actions on the component *)

Inductive Event : Type :=
| Mounted                           (* the effect that runs [loadData] *)
| FileClicked (filePath : string)
| HunkClicked (hunkIndex : nat)
| CommitClicked (commitHash : string)
| PrimaryClicked
| BackClicked.

Section Actions.

Context (env : Env) (repoPath : string).

(** The second button, "Back", rendered with the first one. *)
Definition click_back : Eff App unit :=
  fun a =>
    if primary_shown a.1 then
      match step a.1 with
      | select_commit => set (setStep select_hunks) a
      | select_hunks =>
          (set (setStep select_files) ;;
           set (setSelectedFile None) ;;
           set (setCurrentDiff None) ;;
           set (setSelectedHunks [])) a
      | _ => ret tt a
      end
    else ret tt a.

(** While loading without files the component renders a spinner only. *)
Definition spinner (s : Squasher) : bool := loading s && (length (files s) =? 0)%nat.

(** The file list has one button per entry of [files]. *)
Definition file_listed (s : Squasher) (filePath : string) : bool :=
  existsb (fun f => String.eqb (fs_path f) filePath) (files s).

(** The diff viewer is rendered in the hunk step and has one button per
    hunk of [currentDiff]. *)
Definition hunk_listed (s : Squasher) (hunkIndex : nat) : bool :=
  match step s, currentDiff s with
  | select_hunks, Some (_, hunks) => (hunkIndex <? length hunks)%nat
  | _, _ => false
  end.

(** The commit picker is rendered in the commit step and has one button
    per entry of [commits]. *)
Definition commit_listed (s : Squasher) (commitHash : string) : bool :=
  match step s with
  | select_commit => existsb (fun c => String.eqb (hash c) commitHash) (commits s)
  | _ => false
  end.

(** An action reaches its handler when its control is on the page. *)
Definition dispatch (ev : Event) : Eff App unit :=
  fun a =>
    let s := a.1 in
    match ev with
    | Mounted => loadData env repoPath a
    | FileClicked filePath =>
        if negb (spinner s) && file_listed s filePath
        then handleFileSelect env repoPath filePath a else ret tt a
    | HunkClicked hunkIndex =>
        if negb (spinner s) && hunk_listed s hunkIndex
        then handleHunkToggle hunkIndex a else ret tt a
    | CommitClicked commitHash =>
        if negb (spinner s) && commit_listed s commitHash
        then handleCommitSelect commitHash a else ret tt a
    | PrimaryClicked =>
        if negb (spinner s) then click_primary env repoPath a else ret tt a
    | BackClicked =>
        if negb (spinner s) then click_back a else ret tt a
    end.

(** The runs in which the actions are taken one at a time: the
    component is mounted in some world, and every action is taken after
    the handler of the one before has settled. *)
Inductive sequential : App -> Prop :=
| seq_start w : sequential (initial, w)
| seq_step a ev : sequential a -> sequential (run (dispatch ev) a).

(** [handleFileSelect] awaits the diff, and the page stays live while it
    does: the handler up to the request, and from the answer on. *)
Definition handleFileSelect_begin (filePath : string) : Eff App unit :=
  set (setSelectedFile (Some filePath)) ;;
  set (setSelectedHunks []) ;;
  set (setLoading true) ;;
  set (setError None).

Definition handleFileSelect_end (answer : Res Payload) : Eff App unit :=
  finally
    (try_catch
       (match answer with
        | Ok diffData =>
            set (setCurrentDiff (Some (body_filePath diffData, body_hunks diffData))) ;;
            set (setStep select_hunks)
        | Throw e => throw e
        end)
       (fun err => set (setError (Some err))))
    (fun a => (setLoading false a.1, a.2)).

(** A run with an action in between: the file [filePath] is clicked,
    hunk [hunkIndex] is clicked while the diff is awaited, the diff
    arrives, and the user continues, picks [commit] and squashes. *)
Definition overlapped_session (filePath : string) (hunkIndex : nat) (commit : string)
    : Eff App unit :=
  handleFileSelect_begin filePath ;;
  answer <- call (settled (api_getDiff env repoPath filePath false)) ;;
  dispatch (HunkClicked hunkIndex) ;;
  handleFileSelect_end answer ;;
  dispatch PrimaryClicked ;;
  dispatch (CommitClicked commit) ;;
  dispatch PrimaryClicked.

End Actions.

(** What holds of the state cells between two actions. *)
Record coherent (s : Squasher) : Prop := {
  co_idle : loading s = false;
  co_step : step s <> confirm;
  co_diff : step s <> select_files -> currentDiff s <> None;
  co_nodup : NoDup (selectedHunks s);
  co_range : forall i, In i (selectedHunks s) ->
             exists d, currentDiff s = Some d /\ (i < length d.2)%nat
}.

(** The state cells after [loadData], from the outcomes of its two
    requests. *)
Definition loaded (statusData logData : Res Payload) (s : Squasher) : Squasher :=
  let s0 := setError None (setLoading true s) in
  setLoading false
    match statusData, logData with
    | Throw e, _ => setError (Some e) s0
    | Ok _, Throw e => setError (Some e) s0
    | Ok statusData, Ok logData =>
        let s1 := setCommits (body_commits logData) (setFiles (body_files statusData) s0) in
        if (length (body_files statusData) =? 0)%nat
        then setError (Some "No changed files in working directory") s1
        else s1
    end.

(** The state cells when [handleFileSelect] starts to load the diff. *)
Definition file_picked (filePath : string) (s : Squasher) : Squasher :=
  setError None (setLoading true (setSelectedHunks [] (setSelectedFile (Some filePath) s))).




(** The state cells after a squash into [commit] and the reload. *)
Definition squashed (commit : string) (s : Squasher) : Prop :=
  loading s = false /\ step s = select_files /\
  success s = Some ("Successfully squashed changes into commit " +:+
                    Str.substring0 7 commit) /\
  selectedFile s = None /\ selectedHunks s = [] /\ selectedCommit s = None /\
  currentDiff s = None.

(** Every call fails. *)
Definition git_down : Env :=
  mkEnv (now_at calm) (fun _ _ => Some "fatal: not a git repository")
        (raw_output calm) (status_of calm) (log_of calm).

(** The diff of a file with one hunk. *)
Definition one_hunk_text : string :=
  Str.join Str.NL
    [ "diff --git a/b.txt b/b.txt"; "--- a/b.txt"; "+++ b/b.txt";
      "@@ -4 +4 @@"; "-four"; "+4"; "" ].

(** As [calm], with a.txt and b.txt modified, one commit in the log, and
    a diff of one hunk for b.txt. *)
Definition two_files : Env :=
  mkEnv (now_at calm) (fails calm)
        (fun _ _ args =>
           match args with
           | ["diff"; _; "b.txt"] => one_hunk_text
           | "diff" :: _ => two_hunk_text
           | _ => ""
           end)
        (fun _ _ => mkStatusResult ["a.txt"; "b.txt"] [] [] [] [] false)
        (fun _ _ _ =>
           [mkLogEntry "abc1234def5678" "Add a and b" "Ada" "2024-05-01" "HEAD -> main"]).

(** Two worktrees, and an environment in which git lists them. *)
Definition main_tree : Worktree :=
  mkWorktree (Some "/home/me/my repo") (Some "main")
             (Some "0123456789abcdef0123456789abcdef01234567") None None None.

Definition detached_tree : Worktree :=
  mkWorktree (Some "/home/me/fix") None
             (Some "89abcdef0123456789abcdef0123456789abcdef") None (Some true)
             (Some "gitdir file points to non-existent location").

Definition listing : Env :=
  mkEnv (now_at calm) (fails calm)
        (fun _ _ args =>
           match args with
           | "worktree" :: _ => porcelain_text [main_tree; detached_tree]
           | _ => ""
           end)
        (status_of calm) (log_of calm).

(** ** Hunk headers as git prints them *)

(** [start] or [start,count] *)
Definition range_text (start : Z) (count : option Z) : string :=
  Str.of_Z start +:+
  match count with
  | Some k => "," +:+ Str.of_Z k
  | None => ""
  end.

Definition hunk_header (oldStart : Z) (oldCount : option Z) (newStart : Z)
    (newCount : option Z) (context : string) : string :=
  "@@ -" +:+ range_text oldStart oldCount +:+ " +" +:+ range_text newStart newCount +:+
  " @@" +:+ context.

Definition count_ok (count : option Z) : Prop :=
  match count with Some k => 0 <= k | None => True end.

Fixpoint all_digits (s : string) : bool :=
  match s with
  | String c r => Str.is_digit c && all_digits r
  | EmptyString => true
  end.

(** The text does not go on with a digit. *)
Definition no_digit_next (s : string) : bool :=
  match s with
  | String c _ => negb (Str.is_digit c)
  | EmptyString => true
  end.

(** The value of decimal digits read after [acc]. *)
Fixpoint uint_value (acc : Z) (d : Decimal.uint) : Z :=
  match d with
  | Decimal.Nil => acc
  | Decimal.D0 d => uint_value (10 * acc) d
  | Decimal.D1 d => uint_value (10 * acc + 1) d
  | Decimal.D2 d => uint_value (10 * acc + 2) d
  | Decimal.D3 d => uint_value (10 * acc + 3) d
  | Decimal.D4 d => uint_value (10 * acc + 4) d
  | Decimal.D5 d => uint_value (10 * acc + 5) d
  | Decimal.D6 d => uint_value (10 * acc + 6) d
  | Decimal.D7 d => uint_value (10 * acc + 7) d
  | Decimal.D8 d => uint_value (10 * acc + 8) d
  | Decimal.D9 d => uint_value (10 * acc + 9) d
  end.

(** The shape of a hunk beyond [hunk_ok]: no line after the header is a
    header, and the start is read from the header. *)
Record hunk_shape (h : Hunk) : Prop := {
  sh_body : exists body, lines h = header h :: body /\
                         Forall (fun l => is_header l = false) body;
  sh_start : startLine h = header_start (header h)
}.

(** ** The helpers on small inputs *)

Example split_empty : Str.split_on Str.nl "" = [""].
Proof. reflexivity. Qed.

Example split_trailing : Str.split_on Str.nl ("a" +:+ Str.NL +:+ "b" +:+ Str.NL) = ["a"; "b"; ""].
Proof. reflexivity. Qed.

Example join_three : Str.join ", " ["a"; "b"; "c"] = "a, b, c".
Proof. reflexivity. Qed.

Example of_int_odd : Num.of_int 9007199254740993 = 9007199254740992.
Proof. vm_compute. reflexivity. Qed.

Example of_int_tie_up : Num.of_int 9007199254740995 = 9007199254740996.
Proof. vm_compute. reflexivity. Qed.

Example succ_stuck : Num.succ 9007199254740992 = 9007199254740992.
Proof. vm_compute. reflexivity. Qed.

Example of_int_overflow : Num.of_int (10 ^ 309) = Num.Infinity.
Proof. vm_compute. reflexivity. Qed.

Example of_int_largest : Num.of_int (2 ^ 1024 - 2 ^ 970 - 1) = 2 ^ 1024 - 2 ^ 971.
Proof. vm_compute. reflexivity. Qed.

Example header_plain : header_start "@@ -7 +16,2 @@" = 16.
Proof. vm_compute. reflexivity. Qed.

Example header_leading_zeros : header_start "@@ -1,2 +007,3 @@ int main()" = 7.
Proof. vm_compute. reflexivity. Qed.

Example header_found_later : header_start "@@ x @@ -3,4 +5,6 @@" = 5.
Proof. vm_compute. reflexivity. Qed.

Example header_no_match : header_start "@@ -1,+2 @@" = 0.
Proof. vm_compute. reflexivity. Qed.

Example temp_file_name : temp_file 1700000000000 = "/tmp/patch-1700000000000.patch".
Proof. vm_compute. reflexivity. Qed.

Example toggle_twice : toggle 2 (toggle 0 (toggle 2 (toggle 1 []))) = [1; 0]%nat.
Proof. reflexivity. Qed.

Example parse_two :
  parseDiff ("diff --git a/a.txt b/a.txt" +:+ Str.NL +:+ "--- a/a.txt" +:+ Str.NL +:+
             "+++ b/a.txt" +:+ Str.NL +:+ "@@ -1,2 +10,3 @@ ctx" +:+ Str.NL +:+ " a" +:+
             Str.NL +:+ "+b" +:+ Str.NL +:+ "@@ -7 +16,2 @@" +:+ Str.NL +:+ "+++c" +:+
             Str.NL +:+ "+d" +:+ Str.NL)
  = [ mkHunk "@@ -1,2 +10,3 @@ ctx" ["@@ -1,2 +10,3 @@ ctx"; " a"; "+b"] 10 11;
      mkHunk "@@ -7 +16,2 @@" ["@@ -7 +16,2 @@"; "+++c"; "+d"; ""] 16 17 ].
Proof. vm_compute. reflexivity. Qed.

(** ** Properties of the numbers *)

Lemma safe_lt_Infinity : Num.safe < Num.Infinity.
Proof. unfold Num.safe, Num.Infinity. apply Z.pow_lt_mono_r; lia. Qed.

Lemma nearest_small z : 0 <= z < Num.safe -> Num.nearest z = z.
Proof.
  intros [H0 H1]. unfold Num.nearest.
  assert (Z.log2 z < 53).
  { destruct (Z.eq_dec z 0) as [->|]; [cbn; lia|]. apply Z.log2_lt_pow2; [lia|exact H1]. }
  cbv zeta. destruct (Z.leb_spec (Z.log2 z - 52) 0); [reflexivity|lia].
Qed.

Lemma nearest_big m e r :
  2 ^ 52 <= m < 2 ^ 53 -> 0 < e -> 0 <= r < 2 ^ e ->
  Num.nearest (m * 2 ^ e + r) =
  (if (2 ^ (e - 1) <? r) || ((r =? 2 ^ (e - 1)) && Z.odd m) then m + 1 else m) * 2 ^ e.
Proof.
  intros Hm He Hr. unfold Num.nearest.
  assert (Hp : 0 < 2 ^ e) by (apply Z.pow_pos_nonneg; lia).
  assert (Hl : Z.log2 (m * 2 ^ e + r) = 52 + e).
  { apply Z.log2_unique; [lia|].
    rewrite Z.pow_succ_r, !Z.pow_add_r by lia. nia. }
  rewrite Hl. replace (52 + e - 52) with e by lia. cbv zeta.
  destruct (Z.leb_spec e 0); [lia|].
  assert (Hq : (m * 2 ^ e + r) / 2 ^ e = m).
  { rewrite Z.div_add_l by lia. rewrite Z.div_small by lia. lia. }
  assert (Hmod : (m * 2 ^ e + r) mod 2 ^ e = r).
  { rewrite Z.add_comm, Z.mod_add by lia. apply Z.mod_small. lia. }
  now rewrite Hq, Hmod.
Qed.

(** An integer beyond the safe ones, by significand and exponent. *)
Lemma big_form z : Num.safe <= z ->
  exists m e r, 2 ^ 52 <= m < 2 ^ 53 /\ 0 < e /\ 0 <= r < 2 ^ e /\ z = m * 2 ^ e + r.
Proof.
  intros Hz. unfold Num.safe in Hz.
  assert (H53 : 0 < 2 ^ 53) by (apply Z.pow_pos_nonneg; lia).
  assert (Hlog : 53 <= Z.log2 z) by (apply Z.log2_le_pow2; lia).
  destruct (Z.log2_spec z) as [Hlo Hhi]; [lia|].
  set (e := Z.log2 z - 52) in *.
  assert (Hp : 0 < 2 ^ e) by (apply Z.pow_pos_nonneg; lia).
  exists (z / 2 ^ e), e, (z mod 2 ^ e).
  assert (Hd := Z.div_mod z (2 ^ e) ltac:(lia)).
  assert (Hm := Z.mod_pos_bound z (2 ^ e) Hp).
  replace (Z.log2 z) with (52 + e) in Hlo by lia.
  replace (Z.succ (Z.log2 z)) with (53 + e) in Hhi by lia.
  rewrite Z.pow_add_r in Hlo, Hhi by lia.
  repeat split; try lia.
  - apply Z.div_le_lower_bound; lia.
  - apply Z.div_lt_upper_bound; lia.
Qed.

Lemma double_shift m e : 2 ^ 52 <= m <= 2 ^ 53 -> 0 < e ->
  m * 2 ^ e <= Num.Infinity -> Num.double (m * 2 ^ e).
Proof.
  intros Hm He Hi. destruct (Z.eq_dec m (2 ^ 53)) as [->|Hne].
  - replace (2 ^ 53 * 2 ^ e) with (2 ^ 52 * 2 ^ (e + 1)) in *
      by (rewrite (Z.pow_add_r 2 e 1) by lia; change (2 ^ 53) with (2 ^ 52 * 2); change (2^1) with 2; ring).
    apply Num.double_big; lia.
  - apply Num.double_big; lia.
Qed.

Lemma Infinity_double : Num.double Num.Infinity.
Proof.
  replace Num.Infinity with (2 ^ 52 * 2 ^ 972).
  - apply Num.double_big; try lia.
    rewrite <- Z.pow_add_r by lia. reflexivity.
  - rewrite <- Z.pow_add_r by lia. reflexivity.
Qed.

Lemma nearest_safe z : 0 <= z <= Num.safe -> Num.nearest z = z.
Proof.
  intros Hz. destruct (Z.eq_dec z Num.safe) as [->|]; [|apply nearest_small; lia].
  unfold Num.safe. replace (2 ^ 53) with (2 ^ 52 * 2 ^ 1 + 0) at 1 by reflexivity.
  rewrite nearest_big by lia. reflexivity.
Qed.

Lemma of_int_safe z : 0 <= z <= Num.safe -> Num.of_int z = z.
Proof.
  intros Hz. pose proof safe_lt_Infinity as Hs. unfold Num.of_int.
  rewrite nearest_safe by assumption. destruct (Z.leb_spec Num.Infinity z); [lia|reflexivity].
Qed.

Lemma of_int_double z : 0 <= z -> Num.double (Num.of_int z).
Proof.
  intros Hz. unfold Num.of_int.
  destruct (Z.leb_spec Num.Infinity (Num.nearest z)) as [Hi|Hi]; [apply Infinity_double|].
  destruct (Z.lt_ge_cases z Num.safe) as [Hs|Hs].
  - rewrite nearest_small by lia. apply Num.double_small. lia.
  - destruct (big_form z Hs) as (m & e & r & Hm & He & Hr & ->).
    rewrite nearest_big in * by assumption.
    destruct (_ || _); apply double_shift; lia.
Qed.

Lemma double_bounds n : Num.double n -> 0 <= n <= Num.Infinity.
Proof.
  pose proof safe_lt_Infinity.
  intros [k Hk|m e Hm He Hi]; [lia|].
  assert (0 < 2 ^ e) by (apply Z.pow_pos_nonneg; lia). nia.
Qed.

(** Adding one to a double never gives less, and gives a double. *)
Lemma succ_double n : Num.double n -> n <= Num.succ n /\ Num.double (Num.succ n).
Proof.
  intros Hn. pose proof (double_bounds n Hn) as Hb. unfold Num.succ.
  destruct (Z.eqb_spec n Num.Infinity) as [->|Hne]; [split; [lia|apply Infinity_double]|].
  split; [|apply of_int_double; lia].
  unfold Num.of_int.
  destruct (Z.leb_spec Num.Infinity (Num.nearest (n + 1))) as [Hi|Hi]; [lia|].
  destruct Hn as [k Hk|m e Hm He Hinf].
  - destruct (Z.eq_dec k Num.safe) as [->|].
    + unfold Num.safe. replace (2 ^ 53 + 1) with (2 ^ 52 * 2 ^ 1 + 1) by reflexivity.
      rewrite nearest_big by lia. vm_compute. discriminate.
    + rewrite nearest_safe by lia. lia.
  - assert (2 <= 2 ^ e).
    { change 2 with (2 ^ 1) at 1. apply Z.pow_le_mono_r; lia. }
    rewrite nearest_big by (assumption || lia).
    destruct (_ || _); nia.
Qed.

Lemma succ_safe n : 0 <= n < Num.safe -> Num.succ n = n + 1.
Proof.
  intros Hn. pose proof safe_lt_Infinity. unfold Num.succ.
  destruct (Z.eqb_spec n Num.Infinity); [lia|]. apply of_int_safe. lia.
Qed.

Lemma iter_succ_double k : forall n, Num.double n ->
  n <= Nat.iter k Num.succ n /\ Num.double (Nat.iter k Num.succ n).
Proof.
  induction k as [|k IH]; intros n Hn; [split; [cbn; lia|assumption]|].
  change (Nat.iter (S k) Num.succ n) with (Num.succ (Nat.iter k Num.succ n)).
  destruct (IH n Hn) as [Hle Hd]. destruct (succ_double _ Hd). split; [lia|assumption].
Qed.

Lemma iter_succ_safe k : forall n, 0 <= n -> n + Z.of_nat k <= Num.safe ->
  Nat.iter k Num.succ n = n + Z.of_nat k.
Proof.
  induction k as [|k IH]; intros n H0 Hk; [cbn; lia|].
  change (Nat.iter (S k) Num.succ n) with (Num.succ (Nat.iter k Num.succ n)).
  rewrite IH by lia. rewrite succ_safe by lia. lia.
Qed.

(** ** Properties of the string helpers *)

Section StringFacts.

Lemma split_on_cons sep s : exists piece pieces, Str.split_on sep s = piece :: pieces.
Proof.
  induction s as [|c r IH]; simpl; [eauto|].
  destruct (Ascii.eqb c sep); [eauto|].
  destruct IH as (p & ps & ->). eauto.
Qed.

Lemma join_cons_cons sep a b l :
  Str.join sep (a :: b :: l) = a +:+ sep +:+ Str.join sep (b :: l).
Proof. reflexivity. Qed.

Lemma join_split s : Str.join Str.NL (Str.split_on Str.nl s) = s.
Proof.
  induction s as [|c r IH]; [reflexivity|].
  simpl. destruct (Ascii.eqb_spec c Str.nl) as [->|Hc].
  - destruct (split_on_cons Str.nl r) as (p & ps & E).
    rewrite E in *. rewrite join_cons_cons, IH. reflexivity.
  - destruct (split_on_cons Str.nl r) as (p & ps & E).
    rewrite E in *. destruct ps as [|q ps].
    + simpl in *. now rewrite IH.
    + rewrite join_cons_cons in IH |- *. rewrite <- IH. reflexivity.
Qed.

Lemma preamble_split ls : preamble ls ++ without_preamble ls = ls.
Proof.
  induction ls as [|l ls IH]; [reflexivity|].
  simpl. destruct (is_header l); simpl; [reflexivity|now rewrite IH].
Qed.

Lemma parseInt_from_nonneg s : forall acc, 0 <= acc -> 0 <= Str.parseInt_from acc s.
Proof.
  induction s as [|c r IH]; intros acc Hacc; cbn [Str.parseInt_from]; [assumption|].
  destruct (Str.is_digit c) eqn:E; [|assumption].
  apply IH. unfold Str.is_digit in E. apply andb_prop in E as [E1 E2].
  apply Nat.leb_le in E1, E2. unfold Str.digit_val. lia.
Qed.

Lemma header_start_double line : Num.double (header_start line).
Proof.
  unfold header_start. destruct (Regex.search header_re line).
  - unfold Str.parseInt. apply of_int_double. now apply parseInt_from_nonneg.
  - apply Num.double_small. unfold Num.safe. lia.
Qed.

Lemma header_not_added l : is_header l = true -> is_added l = false.
Proof.
  unfold is_header, is_added, Str.startsWith.
  destruct l as [|c l]; [discriminate|]. cbn [String.prefix].
  destruct (Ascii.ascii_dec "@" c) as [E|E]; [|discriminate].
  subst c. reflexivity.
Qed.

End StringFacts.

(** ** The loop invariant of parseDiff *)

Section ParseLoop.

Implicit Types (st : ParseState) (ls : list string) (h : Hunk).

Lemma all_lines_snoc hs h : all_lines (hs ++ [h]) = all_lines hs ++ lines h.
Proof. unfold all_lines. rewrite map_app, concat_app. simpl. now rewrite app_nil_r. Qed.

Lemma flush_header st line :
  is_header line = true ->
  flush (parse_line st line) =
  flush st ++ [mkHunk line [line] (header_start line) (header_start line)].
Proof. intros E. unfold parse_line. rewrite E. reflexivity. Qed.

Lemma flush_body st h line :
  is_header line = false -> st.2 = Some h ->
  flush (parse_line st line) =
  st.1 ++ [mkHunk (header h) (lines h ++ [line]) (startLine h)
                  (if is_added line then Num.succ (endLine h) else endLine h)].
Proof. intros E Hc. unfold parse_line. rewrite E, Hc. reflexivity. Qed.

Lemma fold_lines ls : forall st,
  all_lines (flush (fold_left parse_line ls st)) = all_lines (flush st) ++ kept st ls.
Proof.
  induction ls as [|line ls IH]; intros st; simpl.
  - unfold kept. destruct st.2; now rewrite app_nil_r.
  - rewrite IH. destruct (is_header line) eqn:E.
    + rewrite flush_header by assumption. rewrite all_lines_snoc. simpl.
      unfold kept at 1. unfold parse_line. rewrite E. simpl.
      unfold kept. simpl. rewrite E. rewrite <- app_assoc. simpl.
      now destruct st.2.
    + destruct st as [hs [h|]].
      * rewrite (flush_body _ h) by (assumption || reflexivity).
        unfold kept, parse_line, flush. rewrite E. simpl.
        rewrite !all_lines_snoc. simpl. now rewrite <- !app_assoc.
      * unfold kept, parse_line, flush. rewrite E. simpl. now rewrite E.
Qed.

Lemma fold_headers ls : forall st,
  map header (flush (fold_left parse_line ls st)) =
  map header (flush st) ++ List.filter is_header ls.
Proof.
  induction ls as [|line ls IH]; intros st; simpl.
  - now rewrite app_nil_r.
  - rewrite IH. destruct (is_header line) eqn:E.
    + rewrite flush_header by assumption. rewrite map_app. simpl.
      now rewrite <- app_assoc.
    + destruct st as [hs [h|]].
      * rewrite (flush_body _ h) by (assumption || reflexivity).
        unfold flush. simpl. now rewrite !map_app.
      * unfold parse_line. now rewrite E.
Qed.

Lemma added_count_snoc h line hd s e :
  added_count (mkHunk hd (lines h ++ [line]) s e) =
  if is_added line then S (added_count h) else added_count h.
Proof.
  unfold added_count. simpl. rewrite List.filter_app, length_app. simpl.
  destruct (is_added line); simpl; lia.
Qed.

Lemma fold_ok ls : forall st,
  Forall hunk_ok (flush st) -> Forall hunk_ok (flush (fold_left parse_line ls st)).
Proof.
  induction ls as [|line ls IH]; intros st Hst; simpl; [assumption|].
  apply IH. destruct (is_header line) eqn:E.
  - rewrite flush_header by assumption. apply Forall_app. split; [assumption|].
    constructor; [|constructor]. split; simpl.
    + now exists [].
    + assumption.
    + apply header_start_double.
    + unfold added_count. simpl. rewrite (header_not_added _ E). reflexivity.
  - destruct st as [hs [h|]].
    + rewrite (flush_body _ h) by (assumption || reflexivity).
      unfold flush in Hst. simpl in *. apply Forall_app in Hst as [Hhs Hh].
      apply Forall_app. split; [assumption|].
      apply Forall_inv in Hh as [[body Hb] Hhd Hs He].
      constructor; [|constructor]. split; simpl.
      * rewrite Hb. now exists (body ++ [line]).
      * assumption.
      * assumption.
      * rewrite added_count_snoc, He. now destruct (is_added line).
    + unfold parse_line. now rewrite E.
Qed.

End ParseLoop.

(** ** The parser: claims C1, C2 and C3 *)

Lemma parseDiff_ok text : Forall hunk_ok (parseDiff text).
Proof. unfold parseDiff. apply fold_ok. constructor. Qed.

(** C1. Round trip of the parser.  For every text: there are as many hunks
    as lines starting with [@@]; the headers of the hunks are those lines,
    in order, and each hunk's [lines] starts with its header; the lines of
    all hunks, concatenated in order and joined by newlines, are the text
    without the lines before its first [@@] line, and putting those lines
    back in front gives the text itself. *)
Theorem parseDiff_round_trip (text : string) :
  let ls := Str.split_on Str.nl text in
  let hunks := parseDiff text in
  length hunks = length (List.filter is_header ls) /\
  map header hunks = List.filter is_header ls /\
  Forall (fun h => exists body, lines h = header h :: body) hunks /\
  Str.join Str.NL (all_lines hunks) = strip_preamble text /\
  Str.join Str.NL (preamble ls ++ all_lines hunks) = text.
Proof.
  intros ls hunks.
  assert (Hh : map header hunks = List.filter is_header ls)
    by (subst hunks; unfold parseDiff; now rewrite fold_headers).
  assert (Hl : all_lines hunks = without_preamble ls)
    by (subst hunks; unfold parseDiff; now rewrite fold_lines).
  repeat split.
  - rewrite <- Hh. now rewrite length_map.
  - exact Hh.
  - eapply Forall_impl; [apply parseDiff_ok|]. intros h Hok. apply Hok.
  - unfold strip_preamble. now rewrite Hl.
  - rewrite Hl, preamble_split. apply join_split.
Qed.

(** C2, as the code has it.  For every hunk of every text, [endLine] is
    at least [startLine], and it is [startLine] after one [++] for each
    of the hunk's lines that start with [+] and not with [+++]; while
    [startLine] and the number of those lines add up to 2^53 at most, the
    difference of [endLine] and [startLine] is that number. *)
Theorem parseDiff_endLine (text : string) :
  Forall (fun h =>
            let added := length (List.filter is_added (lines h)) in
            endLine h >= startLine h /\
            endLine h = Nat.iter added Num.succ (startLine h) /\
            (startLine h + Z.of_nat added <= 2 ^ 53 ->
             endLine h - startLine h = Z.of_nat added))
         (parseDiff text).
Proof.
  eapply Forall_impl; [apply parseDiff_ok|].
  intros h [_ _ Hs He]. cbn zeta. fold (added_count h).
  destruct (iter_succ_double (added_count h) _ Hs) as [Hle _].
  pose proof (double_bounds _ Hs) as [H0 _].
  repeat split.
  - rewrite He. lia.
  - exact He.
  - intros Hsafe. rewrite He, iter_succ_safe by assumption. lia.
Qed.

(** C2, as stated, fails from 2^53 on, where [++] gives back the number
    it was given: the hunk of [huge_start_text] has one added line and an
    [endLine] equal to its [startLine]. *)
Lemma endLine_stuck_at_two53 :
  ~ Forall (fun h =>
              endLine h >= startLine h /\
              endLine h - startLine h =
                Z.of_nat (length (List.filter is_added (lines h))))
           (parseDiff huge_start_text).
Proof.
  intros H. apply Forall_inv in H as [_ H]. vm_compute in H. discriminate H.
Qed.

(** C3, as the code has it.  The text ["@@ garbage @@\n+line\n"] parses to
    one hunk with [startLine] 0 and [endLine] 1 whose [lines] are the
    header, ["+line"] and the empty string that follows the last
    newline. *)
Theorem malformed_header_parse :
  parseDiff malformed_text =
  [ mkHunk "@@ garbage @@" ["@@ garbage @@"; "+line"; ""] 0 1 ].
Proof. vm_compute. reflexivity. Qed.

(** C3, as stated, fails: the [lines] of the hunk are not the two-element
    sequence. *)
Lemma malformed_header_not_two_lines :
  ~ (exists h, parseDiff malformed_text = [h] /\
               startLine h = 0 /\ endLine h = 1 /\
               lines h = ["@@ garbage @@"; "+line"]).
Proof.
  intros (h & Hp & _ & _ & Hl). vm_compute in Hp.
  injection Hp as <-. discriminate Hl.
Qed.

(** ** The stage route *)

#[local] Arguments temp_file : simpl never.
#[local] Arguments patch_content : simpl never.
#[local] Arguments Str.join : simpl never.
#[local] Arguments Str.substring0 : simpl never.
#[local] Arguments stage_hunk : simpl never.
#[local] Arguments parseDiff : simpl never.

Create HintDb eff.
#[local] Hint Unfold bind try_catch finally settled ret throw perform date_now
  fs_writeFile fs_unlink git_raw git_add git_commit git_status git_log
  logged with_disk with_index : eff.

(** Run the effect combinators, splitting on what the oracle answers. *)
Ltac crank :=
  repeat first
    [ progress autounfold with eff
    | progress cbn
    | match goal with
      | |- context [<[?k := ?v]> ?m !! ?k] => rewrite (lookup_insert_eq m k v)
      | |- context [fails ?e ?t ?c] =>
          let E := fresh "E" in destruct (fails e t c) eqn:E
      end ].

Section StageHunk.

Context (env : Env) (repo file hunk : string) (w : World).

Let tmp := temp_file (now_at env (reads w)).
Let doc := patch_content file hunk.
Let W := FsWriteFile tmp doc.
Let A := GitRaw repo ["apply"; "--cached"; tmp].
Let U := FsUnlink tmp.

(** The calls of the hunk branch: the write of the document, then
    nothing but the apply and the removal of that file. *)
Lemma stage_hunk_trace :
  exists rest,
    trace (stage_hunk env repo file hunk w).2 = trace w ++ W :: rest /\
    Forall (fun c => c = A \/ c = U) rest.
Proof.
  unfold stage_hunk. crank; rewrite <- ?app_assoc; cbn.
  all: eexists; (split; [reflexivity|]).
  all: repeat (apply List.Forall_cons; [first [left; reflexivity | right; reflexivity]|]).
  all: apply List.Forall_nil.
Qed.

(** The index gains the document or nothing, and gains it when the
    branch ends well. *)
Lemma stage_hunk_index :
  let out := stage_hunk env repo file hunk w in
  (index out.2 = index w \/ index out.2 = index w ++ [Patch repo doc]) /\
  (out.1 = Ok tt -> index out.2 = index w ++ [Patch repo doc]).
Proof.
  unfold stage_hunk. crank; split; auto; discriminate.
Qed.

(** The calls of the hunk branch are the write, the apply and the
    removal, in this order, up to the first that stops the branch;
    when it is the removal that fails, the removal is tried once more.
    A branch that ends well has made the three calls, has read the
    clock once and has put the document into the index. *)
Lemma stage_hunk_prefix :
  let out := stage_hunk env repo file hunk w in
  exists made,
    (made `prefix_of` [W; A; U] \/ made = [W; A; U; U]) /\
    trace out.2 = trace w ++ made /\
    (index out.2 = index w \/ index out.2 = index w ++ [Patch repo doc]) /\
    (out.1 = Ok tt ->
     made = [W; A; U] /\ index out.2 = index w ++ [Patch repo doc] /\
     reads out.2 = S (reads w)).
Proof.
  unfold stage_hunk. crank; rewrite <- ?app_assoc; cbn.
  all: first
         [ solve [ exists [W; A; U]; split; [left; reflexivity|];
                   repeat split; auto; try discriminate;
                   intros _; repeat split; reflexivity ]
         | solve [ exists [W]; split; [left; now exists [A; U]|];
                   repeat split; auto; discriminate ]
         | solve [ exists [W; A; U; U]; split; [right; reflexivity|];
                   repeat split; auto; discriminate ] ].
Qed.

End StageHunk.

Section StringAppend.

Lemma append_assoc (a b c : string) : (a +:+ b) +:+ c = a +:+ (b +:+ c).
Proof.
  induction a as [|x a IH]; [reflexivity|].
  change (String x ((a +:+ b) +:+ c) = String x (a +:+ (b +:+ c))).
  f_equal. exact IH.
Qed.

Lemma append_length (a b : string) :
  String.length (a +:+ b) = (String.length a + String.length b)%nat.
Proof.
  induction a as [|x a IH]; [reflexivity|].
  change (S (String.length (a +:+ b)) = S (String.length a + String.length b)).
  f_equal. exact IH.
Qed.

Lemma append_cancel_r (a b c : string) : a +:+ c = b +:+ c -> a = b.
Proof.
  revert b. induction a as [|x a IH]; intros [|y b] H.
  - reflexivity.
  - apply (f_equal String.length) in H.
    change ("" +:+ c) with c in H. rewrite append_length in H.
    cbn [String.length] in H. lia.
  - apply (f_equal String.length) in H.
    change ("" +:+ c) with c in H. rewrite append_length in H.
    cbn [String.length] in H. lia.
  - change (String x (a +:+ c) = String y (b +:+ c)) in H.
    injection H as -> H. f_equal. now apply IH.
Qed.

End StringAppend.

(** The template literal of the route builds the document of the
    specification. *)
Lemma patch_content_document p h :
  lines h <> [] -> patch_content p (Str.join Str.NL (lines h)) = patch_document p h.
Proof.
  unfold patch_content, patch_document, patch_lines.
  destruct (lines h) as [|x body]; [congruence|]. intros _.
  cbn [app]. rewrite !join_cons_cons. now rewrite !append_assoc.
Qed.

Lemma hunk_ok_content h :
  hunk_ok h -> lines h <> [] /\ Str.join Str.NL (lines h) <> "".
Proof.
  intros [[body Hb] Hh _]. rewrite Hb. split; [discriminate|].
  destruct (header h) as [|c r]; [discriminate|].
  destruct body; discriminate.
Qed.

Lemma truthy_Some s : s <> "" -> truthy (Some s) = true.
Proof. destruct s; [congruence|reflexivity]. Qed.

Section StageCalls.

Context (env : Env) (repo file : string) (w : World).
Hypothesis repo_given : repo <> "".
Hypothesis file_given : file <> "".

(** The client call with a hunk, in terms of the hunk branch. *)
Lemma api_stageChanges_hunk hunk : hunk <> "" ->
  api_stageChanges env repo file (Some hunk) w =
  match stage_hunk env repo file hunk w with
  | (Ok _, w') => (Ok (SuccessBody "Hunk staged successfully"), w')
  | (Throw _, w') => (Throw "Failed to stage changes", w')
  end.
Proof.
  intros Hh. unfold api_stageChanges, route_stage, bind, try_catch, text.
  rewrite !truthy_Some by assumption. cbn.
  destruct (stage_hunk env repo file hunk w) as [[[]|e] w']; reflexivity.
Qed.

(** The client call without a hunk, or with the empty string. *)
Lemma api_stageChanges_file hunk : truthy hunk = false ->
  api_stageChanges env repo file hunk w =
  match fails env (trace w) (GitAdd repo file) with
  | None => (Ok (SuccessBody "File staged successfully"),
             mkWorld (trace w ++ [GitAdd repo file]) (reads w) (disk w)
                     (index w ++ [Whole repo file]))
  | Some _ => (Throw "Failed to stage changes",
               mkWorld (trace w ++ [GitAdd repo file]) (reads w) (disk w) (index w))
  end.
Proof.
  intros Hh. unfold api_stageChanges, route_stage, bind, try_catch, text.
  rewrite !truthy_Some by assumption. rewrite Hh. cbn.
  unfold git_add, perform.
  destruct (fails env (trace w) (GitAdd repo file)); reflexivity.
Qed.

(** The hunk branch when its three calls succeed ... *)
Lemma stage_hunk_succeeds hunk :
  fails env (trace w) (write_call env file hunk w) = None ->
  fails env (trace w ++ [write_call env file hunk w]) (apply_call env repo w) = None ->
  fails env (trace w ++ [write_call env file hunk w; apply_call env repo w])
        (unlink_call env w) = None ->
  stage_hunk env repo file hunk w =
  (Ok tt,
   mkWorld (trace w ++ [write_call env file hunk w; apply_call env repo w; unlink_call env w])
           (S (reads w))
           (delete (temp_file (now_at env (reads w)))
                   (<[temp_file (now_at env (reads w)) := patch_content file hunk]> (disk w)))
           (index w ++ [Patch repo (patch_content file hunk)])).
Proof.
  unfold write_call, apply_call, unlink_call. intros Hw Ha Hu.
  unfold stage_hunk. autounfold with eff. cbn. rewrite Hw. cbn.
  rewrite lookup_insert_eq. cbn. rewrite Ha. cbn.
  rewrite lookup_insert_eq. cbn. rewrite <- !app_assoc. cbn. rewrite Hu. cbn.
  reflexivity.
Qed.

(** ... and when the apply fails after a successful write: the branch
    throws, the index is as before. *)
Lemma stage_hunk_apply_fails hunk e :
  fails env (trace w) (write_call env file hunk w) = None ->
  fails env (trace w ++ [write_call env file hunk w]) (apply_call env repo w) = Some e ->
  exists e' d,
    stage_hunk env repo file hunk w =
    (Throw e',
     mkWorld (trace w ++ [write_call env file hunk w; apply_call env repo w; unlink_call env w])
             (S (reads w)) d (index w)).
Proof.
  unfold write_call, apply_call, unlink_call. intros Hw Ha.
  unfold stage_hunk. autounfold with eff. cbn. rewrite Hw. cbn.
  rewrite lookup_insert_eq. cbn. rewrite Ha. cbn.
  rewrite lookup_insert_eq. cbn. rewrite <- !app_assoc. cbn.
  match goal with |- context [fails ?e ?t ?c] => destruct (fails e t c) end;
    cbn; eauto.
Qed.

End StageCalls.

(** ** Staging: claims C4, C7, C9 and C10 *)

Section StageOne.

Context (env : Env) (repo file : string).
Hypothesis repo_given : repo <> "".
Hypothesis file_given : file <> "".

(** One pass of the staging loop for a hunk of the parser. *)
Lemma stage_one_hunk h w : hunk_ok h ->
  let out := api_stageChanges env repo file (Some (Str.join Str.NL (lines h))) w in
  exists made,
    (made `prefix_of` stage_triple env repo file h (reads w) \/
     made = stage_triple env repo file h (reads w) ++ [unlink_call env w]) /\
    trace out.2 = trace w ++ made /\
    (index out.2 = index w \/
     index out.2 = index w ++ [Patch repo (patch_document file h)]) /\
    (forall b, out.1 = Ok b ->
               made = stage_triple env repo file h (reads w) /\
               index out.2 = index w ++ [Patch repo (patch_document file h)] /\
               reads out.2 = S (reads w)).
Proof.
  intros Hok. destruct (hunk_ok_content h Hok) as [Hne Hcontent].
  cbn zeta. rewrite api_stageChanges_hunk by assumption.
  destruct (stage_hunk_prefix env repo file (Str.join Str.NL (lines h)) w)
    as (made & Hp & Ht & Hi & Hi').
  rewrite patch_content_document in Hp, Hi, Hi' by assumption.
  exists made. unfold stage_triple.
  destruct (stage_hunk env repo file (Str.join Str.NL (lines h)) w) as [[[]|e] w'];
    cbn [fst snd] in *; repeat split; auto; try discriminate; now apply Hi'.
Qed.

(** ... and when nothing fails. *)
Lemma stage_one_hunk_succeeds h w : hunk_ok h -> never_fails env ->
  exists b w', api_stageChanges env repo file (Some (Str.join Str.NL (lines h))) w
               = (Ok b, w').
Proof.
  intros Hok Hnf. destruct (hunk_ok_content h Hok) as [Hne Hcontent].
  rewrite api_stageChanges_hunk by assumption.
  rewrite stage_hunk_succeeds by (assumption || apply Hnf). eauto.
Qed.

End StageOne.

Section StageLoop.

Context (env : Env) (repo file : string) (hunks : list Hunk).
Hypothesis repo_given : repo <> "".
Hypothesis file_given : file <> "".
Hypothesis hunks_ok : Forall hunk_ok hunks.

Let body (hunkIndex : nat) : Eff World unit :=
  match hunks !! hunkIndex with
  | Some hunk =>
      api_stageChanges env repo file (Some (Str.join Str.NL (lines hunk))) ;; ret tt
  | None => throw TypeError_lines
  end.

Lemma stage_step i h l w : hunks !! i = Some h ->
  for_each (i :: l) body w =
  match api_stageChanges env repo file (Some (Str.join Str.NL (lines h))) w with
  | (Ok _, w1) => for_each l body w1
  | (Throw e, w1) => (Throw e, w1)
  end.
Proof.
  intros Hi. cbn [for_each]. unfold bind at 1. unfold body at 1. rewrite Hi.
  unfold bind, ret.
  destruct (api_stageChanges env repo file (Some (Str.join Str.NL (lines h))) w)
    as [[b|e] w1]; reflexivity.
Qed.

Lemma lookup_hunk_ok i h : hunks !! i = Some h -> hunk_ok h.
Proof.
  intros Hi. rewrite List.Forall_forall in hunks_ok. apply hunks_ok.
  apply list_elem_of_In. eapply list_elem_of_lookup_2. exact Hi.
Qed.

(** The loop makes the calls for the picked hunks, in order, and stops
    in the calls of the first hunk that cannot be staged. *)
Lemma stage_loop l : forall w,
  let out := for_each l body w in
  exists k hs made m,
    Forall2 (fun i h => hunks !! i = Some h) (take k l) hs /\
    (made `prefix_of` staging_calls env repo file hs (reads w) \/
     made = staging_calls env repo file hs (reads w) ++ [second_unlink env hs (reads w)]) /\
    trace out.2 = trace w ++ made /\
    index out.2 = index w ++ documents repo file (take m hs) /\
    (out.1 = Ok tt ->
     k = length l /\ made = staging_calls env repo file hs (reads w) /\ m = length hs).
Proof.
  induction l as [|i l IH]; intros w; cbn zeta.
  - exists 0%nat, [], [], 0%nat. cbn. rewrite !app_nil_r.
    split; [constructor|]. split; [now left|]. repeat split.
  - destruct (hunks !! i) as [h|] eqn:Hi.
    + rewrite (stage_step i h l w Hi).
      destruct (stage_one_hunk env repo file repo_given file_given h w
                  (lookup_hunk_ok i h Hi)) as (made & Hp & Ht & Hidx & Hok).
      cbn zeta in *.
      destruct (api_stageChanges env repo file (Some (Str.join Str.NL (lines h))) w)
        as [[b|e] w1]; cbn [fst snd] in *.
      * destruct (Hok b eq_refl) as (-> & Hidx' & Hr).
        destruct (IH w1) as (k & hs & made & m & Hk & Hp2 & Ht2 & Hi2 & Hok2).
        cbn zeta in *. rewrite Hr in Hp2, Hok2.
        exists (S k), (h :: hs), (stage_triple env repo file h (reads w) ++ made), (S m).
        rewrite Ht2, Hi2, Ht, Hidx'. rewrite <- !app_assoc.
        split; [|split; [|split; [|split]]].
        -- cbn [take]. constructor; assumption.
        -- cbn [staging_calls]. destruct Hp2 as [Hp2| ->].
           ++ left. now apply prefix_app.
           ++ right. rewrite <- app_assoc. do 2 f_equal. unfold second_unlink.
              cbn [length].
              now replace (reads w + S (length hs) - 1)%nat
                with (S (reads w) + length hs - 1)%nat by lia.
        -- reflexivity.
        -- reflexivity.
        -- intros Hr'. destruct (Hok2 Hr') as (-> & -> & ->). repeat split.
      * assert (Hm : exists m : nat,
                   index w1 = index w ++ documents repo file (take m [h])).
        { destruct Hidx as [->| ->]; [exists 0%nat|exists 1%nat]; cbn;
            [now rewrite app_nil_r|reflexivity]. }
        destruct Hm as [m Hm]. exists 1%nat, [h], made, m.
        split; [|split; [|split; [|split]]].
        -- cbn [take]. rewrite take_0. repeat constructor. assumption.
        -- cbn [staging_calls]. rewrite app_nil_r. destruct Hp as [Hp| ->]; [now left|].
           right. unfold second_unlink, unlink_call. cbn [length].
           now replace (reads w + 1 - 1)%nat with (reads w) by lia.
        -- assumption.
        -- assumption.
        -- discriminate.
    + assert (Hstep : for_each (i :: l) body w = (Throw TypeError_lines, w)).
      { cbn [for_each]. unfold bind at 1. unfold body at 1. now rewrite Hi. }
      rewrite Hstep. exists 0%nat, [], [], 0%nat. cbn. rewrite !app_nil_r.
      split; [constructor|]. split; [now left|]. repeat split. discriminate.
Qed.

(** When nothing fails and every picked index has its hunk, the loop
    ends well. *)
Lemma stage_loop_succeeds l : never_fails env ->
  (forall i, In i l -> (i < length hunks)%nat) ->
  forall w, (for_each l body w).1 = Ok tt.
Proof.
  intros Hnf. induction l as [|i l IH]; intros Hl w; [reflexivity|].
  destruct (lookup_lt_is_Some_2 hunks i (Hl i (or_introl eq_refl))) as [h Hi].
  rewrite (stage_step i h l w Hi).
  destruct (stage_one_hunk_succeeds env repo file repo_given file_given h w
              (lookup_hunk_ok i h Hi) Hnf) as (b & w1 & ->).
  apply IH. intros j Hj. apply Hl. now right.
Qed.

End StageLoop.

(** C4. While the selected hunks of a parsed diff are staged for file
    [file], the calls made are the calls for the selected hunks in
    selection order, each hunk with the write of its document, the apply
    of that document and its removal, up to the call that stops the
    staging (a removal that fails is tried once more); the document of a
    hunk is the three lines of the file pair
    followed by the lines of the hunk, joined by newlines and otherwise
    unchanged.  What reaches the index are documents of those hunks, in
    order.  A staging that ends well has made all these calls for all
    selected hunks and has put all their documents into the index; and
    when nothing fails and every selected index has a hunk, the staging
    ends well. *)
Theorem synthesized_patch_form env repo file d s w :
  repo <> "" -> file <> "" ->
  selectedFile s = Some file ->
  currentDiff s = Some (file, parseDiff d) ->
  selectedHunks s <> [] ->
  let out := stage_selection env repo s w in
  let hunk_at (i : nat) (h : Hunk) := parseDiff d !! i = Some h in
  (exists k hs made m,
     Forall2 hunk_at (take k (selectedHunks s)) hs /\
     (made `prefix_of` staging_calls env repo file hs (reads w) \/
      made = staging_calls env repo file hs (reads w) ++ [second_unlink env hs (reads w)]) /\
     trace out.2 = trace w ++ made /\
     index out.2 = index w ++ documents repo file (take m hs)) /\
  (out.1 = Ok tt ->
   exists hs,
     Forall2 hunk_at (selectedHunks s) hs /\
     trace out.2 = trace w ++ staging_calls env repo file hs (reads w) /\
     index out.2 = index w ++ documents repo file hs) /\
  (never_fails env ->
   (forall i, In i (selectedHunks s) -> (i < length (parseDiff d))%nat) ->
   out.1 = Ok tt).
Proof.
  intros Hrepo Hfile Hf Hd Hsel. unfold stage_selection. rewrite Hd, Hf.
  destruct (selectedHunks s) as [|i l] eqn:E; [congruence|].
  cbn [length Nat.ltb Nat.leb text default id]. cbn zeta.
  destruct (stage_loop env repo file (parseDiff d) Hrepo Hfile (parseDiff_ok d) (i :: l) w)
    as (k & hs & made & m & Hk & Hp & Ht & Hi & Hok).
  cbn zeta in Ht, Hi, Hok.
  split; [|split].
  - exists k, hs, made, m. auto.
  - intros Hr. destruct (Hok Hr) as (-> & -> & ->).
    rewrite firstn_all in Hk, Hi. exists hs. auto.
  - intros Hnf Hrange.
    now apply (stage_loop_succeeds env repo file (parseDiff d) Hrepo Hfile (parseDiff_ok d)).
Qed.

(** C10. A stage request whose [hunk] is the empty string is served like
    one without [hunk]: the only call is [git add] of the path.  A hunk
    that is not empty starts with the write of the synthesized document
    and is followed by nothing but the apply and the removal of that
    file. *)
Theorem stage_empty_hunk_adds_file env repo file w :
  repo <> "" -> file <> "" ->
  api_stageChanges env repo file (Some "") w = api_stageChanges env repo file None w /\
  trace (api_stageChanges env repo file (Some "") w).2 = trace w ++ [GitAdd repo file] /\
  (index (api_stageChanges env repo file (Some "") w).2 = index w \/
   index (api_stageChanges env repo file (Some "") w).2 = index w ++ [Whole repo file]) /\
  (forall hunk, hunk <> "" ->
     exists rest,
       trace (api_stageChanges env repo file (Some hunk) w).2 =
         trace w ++ write_call env file hunk w :: rest /\
       Forall (fun c => c = apply_call env repo w \/ c = unlink_call env w) rest).
Proof.
  intros Hrepo Hfile.
  rewrite !(api_stageChanges_file env repo file w Hrepo Hfile) by reflexivity.
  repeat split.
  - destruct (fails env (trace w) (GitAdd repo file)); reflexivity.
  - destruct (fails env (trace w) (GitAdd repo file)); cbn; auto.
  - intros hunk Hh. rewrite api_stageChanges_hunk by assumption.
    destruct (stage_hunk_trace env repo file hunk w) as (rest & Ht & Hrest).
    exists rest. split; [|exact Hrest].
    destruct (stage_hunk env repo file hunk w) as [[[]|e] w']; exact Ht.
Qed.

Section Cleanup.

Context (env : Env) (repo file hunk : string) (w : World).
Hypothesis repo_given : repo <> "".
Hypothesis file_given : file <> "".
Hypothesis hunk_given : hunk <> "".
Hypothesis write_ok : fails env (trace w) (write_call env file hunk w) = None.

Lemma route_stage_hunk :
  route_stage env (Some repo) (Some file) (Some hunk) w =
  match stage_hunk env repo file hunk w with
  | (Ok _, w') => (Ok (mkResponse 200 (SuccessBody "Hunk staged successfully")), w')
  | (Throw e, w') =>
      (Ok (mkResponse 500 (ErrorBody "Failed to stage changes" (Some e))), w')
  end.
Proof.
  unfold route_stage, bind, try_catch, text.
  rewrite !truthy_Some by assumption. cbn.
  destruct (stage_hunk env repo file hunk w) as [[[]|e] w']; reflexivity.
Qed.

(** When the apply fails and the file can be removed, the file is gone
    and the response carries the error of the apply. *)
Lemma apply_error_reported e :
  fails env (trace w ++ [write_call env file hunk w]) (apply_call env repo w) = Some e ->
  fails env (trace w ++ [write_call env file hunk w; apply_call env repo w])
        (unlink_call env w) = None ->
  let out := route_stage env (Some repo) (Some file) (Some hunk) w in
  out.1 = Ok (mkResponse 500 (ErrorBody "Failed to stage changes" (Some e))) /\
  disk out.2 !! temp_file (now_at env (reads w)) = None /\
  index out.2 = index w.
Proof.
  unfold write_call, apply_call, unlink_call in *. intros Ha Hu.
  cbn zeta. rewrite route_stage_hunk.
  unfold stage_hunk. autounfold with eff. cbn. rewrite write_ok. cbn.
  rewrite lookup_insert_eq. cbn. rewrite Ha. cbn.
  rewrite lookup_insert_eq. cbn. rewrite <- !app_assoc. cbn. rewrite Hu. cbn.
  rewrite lookup_delete_eq. auto.
Qed.

(** When the apply fails and the removal fails as well, the response
    carries the error of the removal. *)
Lemma cleanup_error_reported e e' :
  fails env (trace w ++ [write_call env file hunk w]) (apply_call env repo w) = Some e ->
  fails env (trace w ++ [write_call env file hunk w; apply_call env repo w])
        (unlink_call env w) = Some e' ->
  let out := route_stage env (Some repo) (Some file) (Some hunk) w in
  out.1 = Ok (mkResponse 500 (ErrorBody "Failed to stage changes" (Some e'))) /\
  disk out.2 !! temp_file (now_at env (reads w)) = Some (patch_content file hunk).
Proof.
  unfold write_call, apply_call, unlink_call in *. intros Ha Hu.
  cbn zeta. rewrite route_stage_hunk.
  unfold stage_hunk. autounfold with eff. cbn. rewrite write_ok. cbn.
  rewrite lookup_insert_eq. cbn. rewrite Ha. cbn.
  rewrite lookup_insert_eq. cbn. rewrite <- !app_assoc. cbn. rewrite Hu. cbn.
  rewrite lookup_insert_eq. auto.
Qed.

End Cleanup.

(** C7, where the code departs from it.  With [git apply] failing with
    "error: patch does not apply" and the removal of the file failing
    with "EPERM: operation not permitted, unlink", the stage route
    answers with the error of the removal; the error of the apply is
    lost. *)
Theorem cleanup_failure_masks_apply_error :
  let out := route_stage apply_and_unlink_fail (Some "/repo") (Some "a.txt")
               (Some "@@ -1 +1 @@") empty_world in
  fails apply_and_unlink_fail (trace empty_world ++ [write_call apply_and_unlink_fail "a.txt" "@@ -1 +1 @@" empty_world])
        (apply_call apply_and_unlink_fail "/repo" empty_world)
    = Some "error: patch does not apply" /\
  out.1 = Ok (mkResponse 500
                (ErrorBody "Failed to stage changes"
                   (Some "EPERM: operation not permitted, unlink"))) /\
  trace out.2 =
    [ FsWriteFile "/tmp/patch-1700000000000.patch"
        (patch_content "a.txt" "@@ -1 +1 @@");
      GitRaw "/repo" ["apply"; "--cached"; "/tmp/patch-1700000000000.patch"];
      FsUnlink "/tmp/patch-1700000000000.patch" ].
Proof. vm_compute. auto. Qed.

Section TempFile.

Lemma to_int_not_nil n : Z.to_int n <> Decimal.Pos Decimal.Nil /\
                         Z.to_int n <> Decimal.Neg Decimal.Nil.
Proof.
  destruct n as [|p|p]; cbn; split; try discriminate.
  - intros [= H]. now apply (DecimalPos.Unsigned.to_uint_nonnil p).
  - intros [= H]. now apply (DecimalPos.Unsigned.to_uint_nonnil p).
Qed.

Lemma of_Z_inj a b : Str.of_Z a = Str.of_Z b -> a = b.
Proof.
  unfold Str.of_Z. intros H. apply DecimalZ.to_int_inj.
  destruct (to_int_not_nil a) as [Ha Ha'], (to_int_not_nil b) as [Hb Hb'].
  pose proof (NilZero.isi _ Ha Ha') as Ea. pose proof (NilZero.isi _ Hb Hb') as Eb.
  rewrite H in Ea. rewrite Ea in Eb. now injection Eb.
Qed.

(** Two readings of the clock give the same path exactly when they are
    the same reading. *)
Lemma temp_file_eq a b : temp_file a = temp_file b <-> a = b.
Proof.
  split; [|now intros ->]. unfold temp_file. intros H.
  do 3 apply String.app_inj in H. apply append_cancel_r in H.
  now apply of_Z_inj.
Qed.

End TempFile.

(** C9, where the code departs from it.  When the clock reads the same
    millisecond for both, the two stage calls of one staging loop write
    their documents to the same path. *)
Theorem same_millisecond_same_path :
  written_paths
    (trace (run (handleSquash frozen_clock "/repo")
                (chosen (parseDiff two_hunk_text) [0; 1]%nat, empty_world)).2)
  = [ temp_file 1700000000000; temp_file 1700000000000 ].
Proof. vm_compute. reflexivity. Qed.

(** ** The squash handler: claims C5, C6 and C8 *)

(** C6. Without a selected file or without a selected target commit the
    squash handler only sets the error message: it makes no call, the
    world and every other state cell stay as they were. *)
Theorem handleSquash_validation env repo s w :
  truthy (selectedFile s) = false \/ truthy (selectedCommit s) = false ->
  handleSquash env repo (s, w) =
    (Ok tt, (setError (Some "Please select a file and target commit") s, w)) /\
  trace (run (handleSquash env repo) (s, w)).2 = trace w.
Proof.
  intros H. assert (E : handleSquash env repo (s, w) =
    (Ok tt, (setError (Some "Please select a file and target commit") s, w))).
  { unfold handleSquash. cbn [fst snd].
    destruct H as [-> | ->]; [|rewrite orb_true_r]; reflexivity. }
  split; [exact E|]. unfold run. now rewrite E.
Qed.

#[local] Arguments stage_selection : simpl never.
#[local] Arguments api_createFixup : simpl never.
#[local] Arguments api_rebase : simpl never.
#[local] Arguments loadData : simpl never.

(** The control flow of the handler once the validation has passed. *)
Lemma handleSquash_steps env repo s w file commit :
  selectedFile s = Some file -> file <> "" ->
  selectedCommit s = Some commit -> commit <> "" ->
  handleSquash env repo (s, w) =
  match stage_selection env repo s w with
  | (Throw e, w1) => (Ok tt, (squash_failed e s, w1))
  | (Ok _, w1) =>
      match api_createFixup env repo commit w1 with
      | (Throw e, w2) => (Ok tt, (squash_failed e s, w2))
      | (Ok _, w2) =>
          match api_rebase env repo commit w2 with
          | (Throw e, w3) => (Ok tt, (squash_failed e s, w3))
          | (Ok _, w3) =>
              match loadData env repo (squash_done commit s, w3) with
              | (Ok _, a) => (Ok tt, (setLoading false a.1, a.2))
              | (Throw e, a) => (Ok tt, (setLoading false (setError (Some e) a.1), a.2))
              end
          end
      end
  end.
Proof.
  intros Hf Hfile Hc Hcommit. unfold handleSquash. cbn [fst snd].
  rewrite Hf, Hc, !truthy_Some by assumption. cbn [negb orb].
  unfold bind, try_catch, finally, call, set, text, default. cbn.
  destruct (stage_selection env repo s w) as [[[]|e] w1]; [|reflexivity]. cbn.
  destruct (api_createFixup env repo commit w1) as [[?|e] w2]; [|reflexivity]. cbn.
  destruct (api_rebase env repo commit w2) as [[?|e] w3]; [|reflexivity]. cbn.
  unfold squash_done, squash_started.
  match goal with |- context [loadData env repo ?a] => destruct (loadData env repo a) as [[[]|e] a'] end;
    reflexivity.
Qed.

(** C8. Two hunks of a parsed diff are selected; the calls for the first
    succeed, the document of the second is written and its apply fails.
    Then the handler stops: the calls made are the three of the first
    hunk and the three of the second, none of them a fixup commit or a
    rebase; the document of the first hunk is still in the index; the
    error shown is the one of the staging phase, and the selection is as
    it was. *)
Theorem second_apply_failure_keeps_first env repo s w file commit f d i j hi hj e :
  repo <> "" ->
  selectedFile s = Some file -> file <> "" ->
  selectedCommit s = Some commit -> commit <> "" ->
  currentDiff s = Some (f, parseDiff d) ->
  selectedHunks s = [i; j] ->
  parseDiff d !! i = Some hi -> parseDiff d !! j = Some hj ->
  let ci := Str.join Str.NL (lines hi) in
  let cj := Str.join Str.NL (lines hj) in
  let w1 := after_stage env repo file ci w in
  fails env (trace w) (write_call env file ci w) = None ->
  fails env (trace w ++ [write_call env file ci w]) (apply_call env repo w) = None ->
  fails env (trace w ++ [write_call env file ci w; apply_call env repo w])
        (unlink_call env w) = None ->
  fails env (trace w1) (write_call env file cj w1) = None ->
  fails env (trace w1 ++ [write_call env file cj w1]) (apply_call env repo w1) = Some e ->
  let a := run (handleSquash env repo) (s, w) in
  let calls := [ write_call env file ci w; apply_call env repo w; unlink_call env w;
                 write_call env file cj w1; apply_call env repo w1; unlink_call env w1 ] in
  trace a.2 = trace w ++ calls /\
  existsb is_fixup_or_rebase calls = false /\
  index a.2 = index w ++ [Patch repo (patch_document file hi)] /\
  a.1 = squash_failed "Failed to stage changes" s.
Proof.
  intros Hrepo Hf Hfile Hc Hcommit Hd Hsel Hi Hj ci cj w1 Hw1 Ha1 Hu1 Hw2 Ha2 a calls.
  assert (Hoki : hunk_ok hi).
  { pose proof (parseDiff_ok d) as H. rewrite List.Forall_forall in H. apply H.
    apply list_elem_of_In. eapply list_elem_of_lookup_2. exact Hi. }
  assert (Hokj : hunk_ok hj).
  { pose proof (parseDiff_ok d) as H. rewrite List.Forall_forall in H. apply H.
    apply list_elem_of_In. eapply list_elem_of_lookup_2. exact Hj. }
  destruct (hunk_ok_content hi Hoki) as [Hni Hci].
  destruct (hunk_ok_content hj Hokj) as [Hnj Hcj].
  destruct (stage_hunk_apply_fails env repo file w1 cj e Hw2 Ha2) as (e' & dsk & Hfail).
  assert (Hstage : stage_selection env repo s w =
                   (Throw "Failed to stage changes",
                    mkWorld (trace w1 ++ [write_call env file cj w1; apply_call env repo w1;
                                          unlink_call env w1])
                            (S (reads w1)) dsk (index w1))).
  { unfold stage_selection. rewrite Hd, Hsel, Hf. cbn [length Nat.ltb Nat.leb for_each].
    unfold text, default. cbn [from_option id].
    unfold bind at 1. rewrite Hi. unfold bind at 1.
    rewrite api_stageChanges_hunk by assumption.
    fold ci. rewrite (stage_hunk_succeeds env repo file w ci Hw1 Ha1 Hu1).
    fold (after_stage env repo file ci w). fold w1.
    unfold ret at 1. unfold bind at 1. rewrite Hj. unfold bind at 1.
    rewrite api_stageChanges_hunk by assumption.
    fold cj. rewrite Hfail. reflexivity. }
  subst a. unfold run.
  rewrite (handleSquash_steps env repo s w file commit) by assumption.
  rewrite Hstage. cbn [fst snd trace index].
  repeat split.
  - unfold w1, after_stage. cbn [trace]. rewrite <- app_assoc. reflexivity.
  - unfold w1, after_stage. cbn [index]. unfold ci.
    now rewrite patch_content_document.
Qed.

#[local] Arguments api_getDiff : simpl never.
#[local] Arguments handleSquash : simpl never.

Section Calm.

Context (env : Env) (repo : string).
Hypothesis repo_given : repo <> "".
Hypothesis calm_env : never_fails env.

Lemma api_getDiff_ok file w : file <> "" ->
  api_getDiff env repo file false w =
  (Ok (DiffBody file (raw_output env (trace w) repo ["diff"; "--unified=3"; file])
         (parseDiff (raw_output env (trace w) repo ["diff"; "--unified=3"; file]))),
   logged (GitRaw repo ["diff"; "--unified=3"; file]) w).
Proof.
  intros Hfile. unfold api_getDiff, route_diff, bind, try_catch, text.
  rewrite !truthy_Some by assumption. cbn.
  unfold git_raw, bind, perform. cbn. rewrite calm_env. reflexivity.
Qed.

Lemma api_createFixup_ok commit w : commit <> "" ->
  api_createFixup env repo commit w =
  (Ok (SuccessBody "Fixup commit created successfully"),
   mkWorld (trace w ++ [GitCommit repo ("fixup! " +:+ commit) [] [("--fixup", commit)]])
           (reads w) (disk w)
           (List.filter (fun e => negb (String.eqb (staged_repo e) repo)) (index w))).
Proof.
  intros Hcommit. unfold api_createFixup, route_fixup, bind, try_catch, text.
  rewrite !truthy_Some by assumption. cbn.
  unfold git_commit, perform. rewrite calm_env. reflexivity.
Qed.

Lemma api_rebase_ok commit w : commit <> "" ->
  api_rebase env repo commit w =
  (Ok (SuccessBody "Rebase completed successfully"),
   logged (GitRaw repo ["rebase"; "-i"; "--autosquash"; commit +:+ "^"]) w).
Proof.
  intros Hcommit. unfold api_rebase, route_rebase, bind, try_catch, text.
  rewrite !truthy_Some by assumption. cbn.
  unfold git_raw, bind, perform. cbn. rewrite calm_env. reflexivity.
Qed.

Lemma loadData_ok s w :
  exists s',
    loadData env repo (s, w) =
    (Ok tt, (s', mkWorld (trace w ++ [GitStatus repo; GitLog repo 50])
                         (reads w) (disk w) (index w))) /\
    success s' = success s.
Proof.
  unfold loadData, api_getStatus, api_getLog, route_status, route_log.
  unfold bind, try_catch, finally, settled, call, set, text.
  rewrite !truthy_Some by assumption. cbn.
  unfold git_status, git_log, bind, perform. cbn.
  repeat (rewrite calm_env; cbn). unfold logged. cbn. rewrite <- app_assoc. cbn.
  match goal with |- context [(?n =? 0)%nat] => destruct (n =? 0)%nat end;
    cbn; eexists; split; reflexivity.
Qed.

(** Picking a.txt, ticking hunk 0, continuing and picking the commit
    leads to the state [chosen], after one call for the diff. *)
Lemma session_reaches_chosen w :
  squash_session env repo [0%nat] "abc1234" (initial, w) =
  handleSquash env repo
    (chosen (parseDiff (raw_output env (trace w) repo ["diff"; "--unified=3"; "a.txt"]))
            [0%nat],
     logged (GitRaw repo ["diff"; "--unified=3"; "a.txt"]) w).
Proof.
  unfold squash_session, handleFileSelect, handleHunkToggle, handleCommitSelect,
    click_primary.
  unfold bind, try_catch, finally, call, set. cbn.
  rewrite api_getDiff_ok by discriminate. reflexivity.
Qed.

End Calm.

(** C5. The diff of a.txt parses to two hunks and nothing fails.  The
    user picks a.txt, ticks hunk 0 only, and squashes into abc1234.  After
    the call for the diff, the calls are: the write of the document of
    hunk 0, one apply of that file and its removal; one commit with
    [--fixup abc1234]; one [rebase -i --autosquash abc1234^]; then the
    status and the log are read again.  The success message names
    abc1234. *)
Theorem squash_first_of_two_hunks env repo w h0 h1 :
  repo <> "" -> never_fails env ->
  parseDiff (raw_output env (trace w) repo ["diff"; "--unified=3"; "a.txt"]) = [h0; h1] ->
  let a := run (squash_session env repo [0%nat] "abc1234") (initial, w) in
  let tmp := temp_file (now_at env (reads w)) in
  trace a.2 =
    trace w ++
    [ GitRaw repo ["diff"; "--unified=3"; "a.txt"];
      FsWriteFile tmp (patch_document "a.txt" h0);
      GitRaw repo ["apply"; "--cached"; tmp];
      FsUnlink tmp;
      GitCommit repo "fixup! abc1234" [] [("--fixup", "abc1234")];
      GitRaw repo ["rebase"; "-i"; "--autosquash"; "abc1234^"];
      GitStatus repo;
      GitLog repo 50 ] /\
  exists shown, success a.1 = Some shown /\ Str.includes shown "abc1234" = true.
Proof.
  intros Hrepo Hcalm Hparse a tmp. subst a. unfold run.
  rewrite session_reaches_chosen by assumption. rewrite Hparse.
  assert (Hok : hunk_ok h0).
  { pose proof (parseDiff_ok (raw_output env (trace w) repo ["diff"; "--unified=3"; "a.txt"])) as H.
    rewrite Hparse in H. now apply Forall_inv in H. }
  destruct (hunk_ok_content h0 Hok) as [Hne Hcontent].
  set (w0 := logged (GitRaw repo ["diff"; "--unified=3"; "a.txt"]) w).
  assert (Hstage : stage_selection env repo (chosen [h0; h1] [0%nat]) w0 =
                   (Ok tt, after_stage env repo "a.txt" (Str.join Str.NL (lines h0)) w0)).
  { unfold stage_selection, chosen. cbn [currentDiff selectedHunks selectedFile length
      Nat.ltb Nat.leb for_each]. unfold text, default. cbn [from_option id].
    unfold bind at 1. cbn [lookup list_lookup]. unfold bind at 1.
    rewrite api_stageChanges_hunk by (assumption || discriminate).
    rewrite stage_hunk_succeeds by apply Hcalm. reflexivity. }
  rewrite (handleSquash_steps env repo _ w0 "a.txt" "abc1234")
    by (reflexivity || discriminate).
  rewrite Hstage.
  rewrite api_createFixup_ok by (assumption || discriminate).
  rewrite api_rebase_ok by (assumption || discriminate).
  match goal with
  | |- context [loadData env repo (?s, ?w3)] =>
      destruct (loadData_ok env repo Hrepo Hcalm s w3) as (s' & -> & Hs')
  end.
  cbn [fst snd]. split.
  - unfold after_stage, w0, logged, write_call, apply_call, unlink_call. cbn.
    rewrite <- !app_assoc. cbn. fold tmp.
    now rewrite patch_content_document.
  - exists "Successfully squashed changes into commit abc1234". split.
    + unfold setLoading. cbn [success]. rewrite Hs'. reflexivity.
    + reflexivity.
Qed.

(** ** The theorems at the scenarios *)

Lemma calm_never_fails : never_fails calm.
Proof. intros history c. reflexivity. Qed.

Lemma synthesized_patch_form_witness :
  let s := chosen (parseDiff two_hunk_text) [1%nat; 0%nat] in
  let out := stage_selection calm "/repo" s empty_world in
  "/repo" <> "" /\ "a.txt" <> "" /\
  selectedFile s = Some "a.txt" /\
  currentDiff s = Some ("a.txt", parseDiff two_hunk_text) /\
  selectedHunks s <> [] /\
  never_fails calm /\
  (forall i, In i (selectedHunks s) -> (i < length (parseDiff two_hunk_text))%nat) /\
  out.1 = Ok tt /\
  exists hs,
    Forall2 (fun i h => parseDiff two_hunk_text !! i = Some h) (selectedHunks s) hs /\
    trace out.2 = trace empty_world ++ staging_calls calm "/repo" "a.txt" hs (reads empty_world) /\
    index out.2 = index empty_world ++ documents "/repo" "a.txt" hs.
Proof.
  intros s out.
  assert (H1 : "/repo" <> "") by discriminate.
  assert (H2 : "a.txt" <> "") by discriminate.
  assert (H3 : selectedFile s = Some "a.txt") by reflexivity.
  assert (H4 : currentDiff s = Some ("a.txt", parseDiff two_hunk_text)) by reflexivity.
  assert (H5 : selectedHunks s <> []) by discriminate.
  assert (H6 : forall i, In i (selectedHunks s) ->
                         (i < length (parseDiff two_hunk_text))%nat).
  { intros i [<-|[<-|[]]]; vm_compute; lia. }
  pose proof (synthesized_patch_form calm "/repo" "a.txt" two_hunk_text s empty_world
                H1 H2 H3 H4 H5) as (_ & Hok & Hlive).
  pose proof (Hlive calm_never_fails H6) as Hr.
  repeat (split; [assumption|]).
  split; [exact calm_never_fails|]. split; [exact H6|]. split; [exact Hr|].
  exact (Hok Hr).
Defined.

Lemma squash_first_of_two_hunks_witness :
  "/repo" <> "" /\ never_fails calm /\
  parseDiff (raw_output calm (trace empty_world) "/repo" ["diff"; "--unified=3"; "a.txt"])
    = [hunk_one; hunk_ten] /\
  let a := run (squash_session calm "/repo" [0%nat] "abc1234") (initial, empty_world) in
  let tmp := temp_file (now_at calm (reads empty_world)) in
  trace a.2 =
    trace empty_world ++
    [ GitRaw "/repo" ["diff"; "--unified=3"; "a.txt"];
      FsWriteFile tmp (patch_document "a.txt" hunk_one);
      GitRaw "/repo" ["apply"; "--cached"; tmp];
      FsUnlink tmp;
      GitCommit "/repo" "fixup! abc1234" [] [("--fixup", "abc1234")];
      GitRaw "/repo" ["rebase"; "-i"; "--autosquash"; "abc1234^"];
      GitStatus "/repo";
      GitLog "/repo" 50 ] /\
  exists shown, success a.1 = Some shown /\ Str.includes shown "abc1234" = true.
Proof.
  assert (H1 : "/repo" <> "") by discriminate.
  assert (H3 : parseDiff (raw_output calm (trace empty_world) "/repo"
                            ["diff"; "--unified=3"; "a.txt"]) = [hunk_one; hunk_ten])
    by (vm_compute; reflexivity).
  split; [exact H1|]. split; [exact calm_never_fails|]. split; [exact H3|].
  exact (squash_first_of_two_hunks calm "/repo" empty_world hunk_one hunk_ten
           H1 calm_never_fails H3).
Defined.

Lemma handleSquash_validation_witness :
  (truthy (selectedFile initial) = false \/ truthy (selectedCommit initial) = false) /\
  handleSquash calm "/repo" (initial, empty_world) =
    (Ok tt, (setError (Some "Please select a file and target commit") initial, empty_world)) /\
  trace (run (handleSquash calm "/repo") (initial, empty_world)).2 = trace empty_world.
Proof.
  assert (H : truthy (selectedFile initial) = false \/ truthy (selectedCommit initial) = false)
    by (left; reflexivity).
  split; [exact H|].
  exact (handleSquash_validation calm "/repo" initial empty_world H).
Defined.

Lemma second_apply_failure_keeps_first_witness :
  let env := second_apply_fails in
  let s := chosen (parseDiff two_hunk_text) [0; 1]%nat in
  let w := empty_world in
  let ci := Str.join Str.NL (lines hunk_one) in
  let cj := Str.join Str.NL (lines hunk_ten) in
  let w1 := after_stage env "/repo" "a.txt" ci w in
  (fails env (trace w) (write_call env "a.txt" ci w) = None /\
   fails env (trace w ++ [write_call env "a.txt" ci w]) (apply_call env "/repo" w) = None /\
   fails env (trace w ++ [write_call env "a.txt" ci w; apply_call env "/repo" w])
         (unlink_call env w) = None /\
   fails env (trace w1) (write_call env "a.txt" cj w1) = None /\
   fails env (trace w1 ++ [write_call env "a.txt" cj w1]) (apply_call env "/repo" w1)
     = Some "error: patch failed: a.txt:10") /\
  let a := run (handleSquash env "/repo") (s, w) in
  let calls := [ write_call env "a.txt" ci w; apply_call env "/repo" w; unlink_call env w;
                 write_call env "a.txt" cj w1; apply_call env "/repo" w1;
                 unlink_call env w1 ] in
  trace a.2 = trace w ++ calls /\
  existsb is_fixup_or_rebase calls = false /\
  index a.2 = index w ++ [Patch "/repo" (patch_document "a.txt" hunk_one)] /\
  a.1 = squash_failed "Failed to stage changes" s.
Proof.
  intros env s w ci cj w1.
  assert (Hrepo : "/repo" <> "") by discriminate.
  assert (Hfile : "a.txt" <> "") by discriminate.
  assert (Hcommit : "abc1234" <> "") by discriminate.
  assert (Hi : parseDiff two_hunk_text !! 0%nat = Some hunk_one) by (vm_compute; reflexivity).
  assert (Hj : parseDiff two_hunk_text !! 1%nat = Some hunk_ten) by (vm_compute; reflexivity).
  assert (F1 : fails env (trace w) (write_call env "a.txt" ci w) = None) by reflexivity.
  assert (F2 : fails env (trace w ++ [write_call env "a.txt" ci w])
                     (apply_call env "/repo" w) = None) by reflexivity.
  assert (F3 : fails env (trace w ++ [write_call env "a.txt" ci w; apply_call env "/repo" w])
                     (unlink_call env w) = None) by reflexivity.
  assert (F4 : fails env (trace w1) (write_call env "a.txt" cj w1) = None) by reflexivity.
  assert (F5 : fails env (trace w1 ++ [write_call env "a.txt" cj w1])
                     (apply_call env "/repo" w1) = Some "error: patch failed: a.txt:10")
    by reflexivity.
  split; [repeat split; assumption|].
  exact (second_apply_failure_keeps_first env "/repo" s w "a.txt" "abc1234" "a.txt"
           two_hunk_text 0%nat 1%nat hunk_one hunk_ten "error: patch failed: a.txt:10"
           Hrepo eq_refl Hfile eq_refl Hcommit eq_refl eq_refl Hi Hj F1 F2 F3 F4 F5).
Defined.

Lemma stage_empty_hunk_adds_file_witness :
  "/repo" <> "" /\ "a.txt" <> "" /\
  api_stageChanges calm "/repo" "a.txt" (Some "") empty_world =
    api_stageChanges calm "/repo" "a.txt" None empty_world /\
  trace (api_stageChanges calm "/repo" "a.txt" (Some "") empty_world).2 =
    trace empty_world ++ [GitAdd "/repo" "a.txt"] /\
  (index (api_stageChanges calm "/repo" "a.txt" (Some "") empty_world).2 = index empty_world \/
   index (api_stageChanges calm "/repo" "a.txt" (Some "") empty_world).2 =
     index empty_world ++ [Whole "/repo" "a.txt"]) /\
  (forall hunk, hunk <> "" ->
     exists rest,
       trace (api_stageChanges calm "/repo" "a.txt" (Some hunk) empty_world).2 =
         trace empty_world ++ write_call calm "a.txt" hunk empty_world :: rest /\
       Forall (fun c => c = apply_call calm "/repo" empty_world \/
                        c = unlink_call calm empty_world) rest).
Proof.
  assert (H1 : "/repo" <> "") by discriminate.
  assert (H2 : "a.txt" <> "") by discriminate.
  split; [exact H1|]. split; [exact H2|].
  exact (stage_empty_hunk_adds_file calm "/repo" "a.txt" empty_world H1 H2).
Defined.

(** ** More on the parser *)

Section Decimal.

Lemma parseInt_from_uint d : forall acc,
  Str.parseInt_from acc (NilEmpty.string_of_uint d) = uint_value acc d.
Proof.
  induction d; intros acc; cbn [NilEmpty.string_of_uint Str.parseInt_from uint_value];
    [reflexivity|..];
    (change (Str.is_digit _) with true; cbn iota; rewrite <- IHd; f_equal;
     try (change (Str.digit_val _) with 0; lia)).
Qed.

Lemma uint_value_acc d : forall acc : positive,
  uint_value (Z.pos acc) d = Z.pos (Pos.of_uint_acc d acc).
Proof.
  induction d; intros acc; cbn [uint_value Pos.of_uint_acc]; [reflexivity|..];
    rewrite <- IHd; f_equal; lia.
Qed.

Lemma uint_value_of_uint d : uint_value 0 d = Z.of_uint d.
Proof.
  unfold Z.of_uint. induction d; cbn [uint_value Pos.of_uint]; [reflexivity|..];
    try (change (10 * 0) with 0; exact IHd).
  all: match goal with
       | |- uint_value ?k _ = Z.of_N (N.pos (Pos.of_uint_acc _ ?p)) =>
           change k with (Z.pos p); rewrite uint_value_acc; reflexivity
       end.
Qed.

Lemma string_of_uint_digits d : all_digits (NilEmpty.string_of_uint d) = true.
Proof. induction d; cbn; auto. Qed.

Lemma to_uint_not_nil p : Pos.to_uint p <> Decimal.Nil.
Proof. apply DecimalPos.Unsigned.to_uint_nonnil. Qed.

(** The decimal text of an integer that is not negative: digits, at least
    one, and they denote the integer. *)
Lemma of_Z_digits n : 0 <= n ->
  all_digits (Str.of_Z n) = true /\ Str.of_Z n <> "" /\
  Str.parseInt_from 0 (Str.of_Z n) = n.
Proof.
  intros Hn. unfold Str.of_Z. destruct n as [|p|p]; [ | |lia].
  - repeat split; try reflexivity. discriminate.
  - cbn [Z.to_int NilZero.string_of_int].
    assert (E : NilZero.string_of_uint (Pos.to_uint p) =
                NilEmpty.string_of_uint (Pos.to_uint p)).
    { unfold NilZero.string_of_uint. pose proof (to_uint_not_nil p).
      destruct (Pos.to_uint p); congruence. }
    rewrite E. repeat split.
    + apply string_of_uint_digits.
    + pose proof (to_uint_not_nil p). destruct (Pos.to_uint p); try congruence; discriminate.
    + rewrite parseInt_from_uint, uint_value_of_uint.
      change (Z.of_uint (Pos.to_uint p)) with (Z.of_int (Z.to_int (Z.pos p))).
      apply DecimalZ.of_to.
Qed.

End Decimal.

Section RegexRuns.

Import Regex.

Lemma append_nil_r (s : string) : s +:+ "" = s.
Proof.
  induction s as [|c s IH]; [reflexivity|].
  change (String c (s +:+ "") = String c s). now rewrite IH.
Qed.

Lemma strip_prefix_app p s : strip_prefix p (p +:+ s) = Some s.
Proof.
  induction p as [|c p IH]; [reflexivity|].
  change (String c p +:+ s) with (String c (p +:+ s)).
  cbn [strip_prefix]. now rewrite Ascii.eqb_refl.
Qed.

(** A greedy run of digits takes all of them when the rest of the
    pattern then matches. *)
Lemma greedy_digits_all {R : Type} least (k : string -> string -> option R) d :
  forall taken s res,
    all_digits d = true -> no_digit_next s = true ->
    (least <= String.length (taken +:+ d))%nat ->
    k (taken +:+ d) s = Some res ->
    greedy_digits least k taken (d +:+ s) = Some res.
Proof.
  induction d as [|c d IH]; intros taken s res Hd Hs Hlen Hk.
  - rewrite append_nil_r in Hlen, Hk. change ("" +:+ s) with s.
    apply Nat.leb_le in Hlen.
    destruct s as [|c r]; cbn [greedy_digits]; rewrite Hlen; [exact Hk|].
    cbn in Hs. apply negb_true_iff in Hs. rewrite Hs. exact Hk.
  - cbn [all_digits] in Hd. apply andb_true_iff in Hd as [Hc Hd].
    change (String c d +:+ s) with (String c (d +:+ s)).
    cbn [greedy_digits]. rewrite Hc.
    rewrite (IH (taken +:+ String c "") s res); auto.
    + rewrite append_assoc. exact Hlen.
    + rewrite append_assoc. exact Hk.
Qed.

Lemma exec_lit l p groups s : exec (Lit l :: p) groups (l +:+ s) = exec p groups s.
Proof. cbn [exec]. now rewrite strip_prefix_app. Qed.

Lemma exec_digits least (capture : bool) p (groups : list string) d s res :
  all_digits d = true -> no_digit_next s = true ->
  (least <= String.length d)%nat ->
  exec p (if capture then groups ++ [d] else groups) s = Some res ->
  exec (Digits least capture :: p) groups (d +:+ s) = Some res.
Proof.
  intros Hd Hs Hlen Hk. cbn [exec].
  apply greedy_digits_all; auto.
Qed.

Lemma exec_comma p groups s res :
  exec p groups s = Some res ->
  exec (OptChar ","%char :: p) groups ("," +:+ s) = Some res.
Proof. intros H. change ("," +:+ s) with (String "," s). cbn [exec]. cbn. now rewrite H. Qed.

Lemma exec_no_comma p groups s res :
  exec p groups (" " +:+ s) = Some res ->
  exec (OptChar ","%char :: p) groups (" " +:+ s) = Some res.
Proof. intros H. change (" " +:+ s) with (String " " s) in *. cbn [exec]. cbn. exact H. Qed.

(** [\d+,?\d*] on a printed range followed by a space *)
Lemma exec_range (capture : bool) p (groups : list string) start count s res :
  0 <= start -> count_ok count ->
  exec p (if capture then groups ++ [Str.of_Z start] else groups) (" " +:+ s) = Some res ->
  exec (Digits 1 capture :: OptChar ","%char :: Digits 0 false :: p) groups
       (range_text start count +:+ " " +:+ s) = Some res.
Proof.
  intros Hs Hc H. destruct (of_Z_digits start Hs) as (Hd & Hne & _).
  assert (Hlen : (1 <= String.length (Str.of_Z start))%nat)
    by (destruct (Str.of_Z start); [congruence|cbn; lia]).
  unfold range_text. rewrite append_assoc.
  destruct count as [k|].
  - destruct (of_Z_digits k Hc) as (Hdk & _ & _).
    rewrite append_assoc.
    apply exec_digits; auto. apply exec_comma.
    apply exec_digits; auto; cbn; lia.
  - change ("" +:+ " " +:+ s) with (" " +:+ s).
    apply exec_digits; auto.
Qed.

End RegexRuns.

(** X1. The start read from a header as git prints it, with or without the
    counts and whatever follows the second [@@], is the number for the
    start of the range after [+]: that start itself up to 2^53, the
    nearest double beyond. *)
Theorem header_start_printed oldStart oldCount newStart newCount context :
  0 <= oldStart -> count_ok oldCount -> 0 <= newStart -> count_ok newCount ->
  header_start (hunk_header oldStart oldCount newStart newCount context)
    = Num.of_int newStart /\
  (newStart <= 2 ^ 53 ->
   header_start (hunk_header oldStart oldCount newStart newCount context) = newStart).
Proof.
  intros Ha Hca Hc Hcc. unfold header_start, hunk_header.
  assert (E : Regex.exec header_re []
                ("@@ -" +:+ range_text oldStart oldCount +:+ " +" +:+
                 range_text newStart newCount +:+ " @@" +:+ context)
              = Some [Str.of_Z oldStart; Str.of_Z newStart]).
  { unfold header_re. rewrite exec_lit.
    change (" +" +:+ range_text newStart newCount +:+ " @@" +:+ context)
      with (" " +:+ "+" +:+ range_text newStart newCount +:+ " @@" +:+ context).
    apply exec_range; auto. cbn [app].
    change (" " +:+ "+" +:+ range_text newStart newCount +:+ " @@" +:+ context)
      with (" +" +:+ range_text newStart newCount +:+ " @@" +:+ context).
    rewrite exec_lit.
    change (" @@" +:+ context) with (" " +:+ "@@" +:+ context).
    apply exec_range; auto. }
  set (line := "@@ -" +:+ _) in *.
  assert (S : Regex.search header_re line = Some [Str.of_Z oldStart; Str.of_Z newStart]).
  { destruct line; cbn [Regex.search]; now rewrite E. }
  rewrite S. cbn [nth]. unfold Str.parseInt.
  destruct (of_Z_digits newStart Hc) as (_ & _ & ->).
  split; [reflexivity|]. intros Hs. apply of_int_safe. unfold Num.safe. lia.
Qed.

Section ParserShape.

Lemma header_start_nonneg line : 0 <= header_start line.
Proof. apply (double_bounds _ (header_start_double line)). Qed.

Lemma fold_shape ls : forall st,
  Forall hunk_shape (flush st) -> Forall hunk_shape (flush (fold_left parse_line ls st)).
Proof.
  induction ls as [|line ls IH]; intros st Hst; cbn [fold_left]; [assumption|].
  apply IH. destruct (is_header line) eqn:E.
  - rewrite flush_header by assumption. apply Forall_app. split; [assumption|].
    constructor; [|constructor]. split; cbn.
    + exists []. split; [reflexivity|constructor].
    + reflexivity.
  - destruct st as [hs [h|]].
    + rewrite (flush_body _ h) by (assumption || reflexivity).
      unfold flush in Hst. cbn in *. apply Forall_app in Hst as [Hhs Hh].
      apply Forall_app. split; [assumption|].
      apply Forall_inv in Hh as [(body & Hb & Hn) Hs].
      constructor; [|constructor]. split; cbn.
      * exists (body ++ [line]). rewrite Hb. split; [reflexivity|].
        apply Forall_app. split; [assumption|]. constructor; [assumption|constructor].
      * assumption.
    + unfold parse_line. now rewrite E.
Qed.

End ParserShape.

Lemma parseDiff_hunk_shape (text : string) : Forall hunk_shape (parseDiff text).
Proof. unfold parseDiff. apply fold_shape. constructor. Qed.

(** X2. In every hunk of every text, the header is the only line that starts
    with [@@], and [startLine] is the number read from that header, never
    negative. *)
Theorem parseDiff_shape (text : string) :
  Forall (fun h =>
            (exists body, lines h = header h :: body /\
                          Forall (fun l => is_header l = false) body) /\
            startLine h = header_start (header h) /\
            0 <= startLine h)
         (parseDiff text).
Proof.
  eapply Forall_impl; [apply parseDiff_hunk_shape|].
  intros h [Hb Hs]. repeat split; auto. rewrite Hs. apply header_start_nonneg.
Qed.

Section ParserComposition.

Lemma split_on_app sep a b :
  Str.split_on sep (a +:+ String sep b) = Str.split_on sep a ++ Str.split_on sep b.
Proof.
  induction a as [|c a IH].
  - change ("" +:+ String sep b) with (String sep b). cbn [Str.split_on].
    now rewrite Ascii.eqb_refl.
  - change (String c a +:+ String sep b) with (String c (a +:+ String sep b)).
    cbn [Str.split_on]. rewrite IH.
    destruct (Ascii.eqb c sep); [reflexivity|].
    destruct (split_on_cons sep a) as (p & ps & ->). reflexivity.
Qed.

(** Hunks already pushed are not looked at again. *)
Lemma fold_pushed ls : forall hs hs' cur,
  flush (fold_left parse_line ls (hs ++ hs', cur)) =
  hs ++ flush (fold_left parse_line ls (hs', cur)).
Proof.
  induction ls as [|line ls IH]; intros hs hs' cur; cbn [fold_left].
  - unfold flush. cbn. destruct cur; [now rewrite app_assoc|reflexivity].
  - assert (E : exists hs2 cur2,
                  parse_line (hs ++ hs', cur) line = (hs ++ hs2, cur2) /\
                  parse_line (hs', cur) line = (hs2, cur2)).
    { unfold parse_line, flush. cbn [fst snd].
      destruct (is_header line), cur as [h|]; eauto.
      rewrite <- app_assoc. eauto. }
    destruct E as (hs2 & cur2 & -> & ->). apply IH.
Qed.

Lemma fold_restart ls line st :
  is_header line = true ->
  flush (fold_left parse_line (line :: ls) st) =
  flush st ++ flush (fold_left parse_line (line :: ls) ([], None)).
Proof.
  intros E. cbn [fold_left].
  assert (P : forall st', parse_line st' line =
                (flush st', Some (mkHunk line [line] (header_start line) (header_start line))))
    by (intros st'; unfold parse_line; now rewrite E).
  rewrite !P. change (flush ([], None)) with (@nil Hunk).
  rewrite <- (app_nil_r (flush st)) at 1. apply fold_pushed.
Qed.

End ParserComposition.

(** X3. Parsing is local to the hunks: when the text after a newline starts
    with a header line, the hunks of the whole text are the hunks of the
    part before the newline followed by the hunks of the part after it. *)
Theorem parseDiff_app (before after : string) :
  is_header after = true ->
  parseDiff (before +:+ Str.NL +:+ after) = parseDiff before ++ parseDiff after.
Proof.
  intros Hh. unfold parseDiff.
  change (before +:+ Str.NL +:+ after) with (before +:+ String Str.nl after).
  rewrite split_on_app, fold_left_app.
  destruct (split_on_cons Str.nl after) as (line & ls & E). rewrite E.
  apply fold_restart.
  (* the first line of [after] starts with [@@] as [after] does *)
  unfold is_header, Str.startsWith in *.
  destruct after as [|c1 r1]; [discriminate Hh|].
  cbn [String.prefix] in Hh.
  destruct (ascii_dec "@" c1) as [E1|]; [subst c1|discriminate].
  destruct r1 as [|c2 r]; [discriminate Hh|].
  cbn [String.prefix] in Hh.
  destruct (ascii_dec "@" c2) as [E2|]; [subst c2|discriminate].
  cbn [Str.split_on] in E. cbn in E.
  destruct (split_on_cons Str.nl r) as (p & ps & Er). rewrite Er in E.
  injection E as <- _. now destruct p.
Qed.

Section Viewer.

Lemma lineClass_green line : lineClass line = green <-> is_added line = true.
Proof.
  unfold lineClass, is_added.
  destruct (Str.startsWith line "+" && negb (Str.startsWith line "+++")); [tauto|].
  split; [|discriminate].
  destruct (Str.startsWith line "-" && negb (Str.startsWith line "---")); [discriminate|].
  destruct (Str.startsWith line "@@"); discriminate.
Qed.

Lemma lineClass_blue line : lineClass line = blue -> is_header line = true.
Proof.
  unfold lineClass, is_header.
  destruct (Str.startsWith line "+" && negb (Str.startsWith line "+++")); [discriminate|].
  destruct (Str.startsWith line "-" && negb (Str.startsWith line "---")); [discriminate|].
  destruct (Str.startsWith line "@@"); [reflexivity|discriminate].
Qed.

Lemma green_rows ls :
  length (List.filter is_green
            (map (fun line => (lineClass line, if truthy (Some line) then line else " ")) ls))
  = length (List.filter is_added ls).
Proof.
  induction ls as [|l ls IH]; [reflexivity|]. cbn [map List.filter].
  unfold is_green at 1. cbn [fst].
  pose proof (lineClass_green l) as H.
  destruct (is_added l).
  - destruct H as [_ H]. rewrite (H eq_refl). cbn [length]. now rewrite IH.
  - destruct (lineClass l); try exact IH.
    destruct H as [H _]. discriminate (H eq_refl).
Qed.

End Viewer.

(** X4. The viewer and the parser agree: for every hunk of every text
    there is one row for each line after the header, no row is shown
    blue, and [endLine] is [startLine] after one [++] for each row shown
    green; while [startLine] and the number of green rows add up to 2^53
    at most, that number is [endLine - startLine]. *)
Theorem shown_rows_parsed (text : string) :
  Forall (fun h =>
            let greens := length (List.filter is_green (shown_rows h)) in
            S (length (shown_rows h)) = length (lines h) /\
            Forall (fun row => row.1 <> blue) (shown_rows h) /\
            endLine h = Nat.iter greens Num.succ (startLine h) /\
            (startLine h + Z.of_nat greens <= 2 ^ 53 ->
             Z.of_nat greens = endLine h - startLine h))
         (parseDiff text).
Proof.
  pose proof (parseDiff_ok text) as Hok. pose proof (parseDiff_hunk_shape text) as Hsh.
  rewrite List.Forall_forall in *. intros h Hin.
  destruct (Hok h Hin) as [_ Hhd Hd He].
  destruct (Hsh h Hin) as [(body & Hb & Hn) _].
  cbn zeta. unfold shown_rows. rewrite Hb. cbn [List.tl].
  assert (Hg : added_count h = length (List.filter is_added body)).
  { unfold added_count. rewrite Hb. cbn [List.filter].
    now rewrite (header_not_added _ Hhd). }
  rewrite green_rows, <- Hg.
  pose proof (double_bounds _ Hd) as [H0 _].
  repeat split.
  - cbn [length]. now rewrite length_map.
  - rewrite List.Forall_forall in *. intros row Hrow.
    apply List.in_map_iff in Hrow as (l & <- & Hl). cbn [fst].
    intros Hblue. apply lineClass_blue in Hblue. rewrite (Hn l Hl) in Hblue. discriminate.
  - exact He.
  - intros Hs. rewrite He, iter_succ_safe by assumption. lia.
Qed.

(** ** The worktree list parser *)

Section SplitJoin.

Lemma join_split_on sep s :
  Str.join (String sep "") (Str.split_on sep s) = s.
Proof.
  induction s as [|c r IH]; [reflexivity|].
  cbn [Str.split_on]. destruct (Ascii.eqb_spec c sep) as [->|Hc];
    destruct (split_on_cons sep r) as (p & ps & E); rewrite E in *.
  - rewrite join_cons_cons, IH. reflexivity.
  - destruct ps as [|q ps].
    + change (Str.join (String sep "") [String c p]) with (String c p).
      change (Str.join (String sep "") [p]) with p in IH. now rewrite IH.
    + rewrite join_cons_cons in IH |- *. rewrite <- IH. reflexivity.
Qed.

Lemma no_newline_cons c r : no_newline (String c r) <-> c <> Str.nl /\ no_newline r.
Proof.
  unfold no_newline. cbn [Str.split_on].
  destruct (Ascii.eqb_spec c Str.nl) as [->|Hc];
    destruct (split_on_cons Str.nl r) as (p & ps & E); rewrite E.
  - split; [discriminate|]. intros [H _]. congruence.
  - split.
    + intros [= -> ->]. auto.
    + intros [_ [= -> ->]]. reflexivity.
Qed.

Lemma no_newline_app a b : no_newline a -> no_newline b -> no_newline (a +:+ b).
Proof.
  induction a as [|c a IH]; intros Ha Hb; [exact Hb|].
  change (String c a +:+ b) with (String c (a +:+ b)).
  apply no_newline_cons in Ha as [Hc Ha]. apply no_newline_cons. auto.
Qed.

Lemma split_join ls :
  ls <> [] -> Forall no_newline ls -> Str.split_on Str.nl (Str.join Str.NL ls) = ls.
Proof.
  induction ls as [|l ls IH]; [congruence|]. intros _ H.
  apply Forall_cons in H as [Hl Hls]. destruct ls as [|l' ls].
  - exact Hl.
  - rewrite join_cons_cons. change (Str.NL +:+ ?x) with (String Str.nl x).
    rewrite split_on_app, Hl, IH by (assumption || discriminate). reflexivity.
Qed.

End SplitJoin.

Section TextFacts.

Lemma trim_not_blank c r : Text.is_space c = false ->
  exists c' r', Text.trim (String c r) = String c' r'.
Proof.
  intros Hc. unfold Text.trim. cbn [Text.trimStart]. rewrite Hc.
  cbn [Text.trimEnd]. rewrite Hc. destruct (Text.trimEnd r); eauto.
Qed.

Lemma prefix_app p s : String.prefix p (p +:+ s) = true.
Proof.
  induction p as [|c p IH]; [now destruct s|].
  change (String c p +:+ s) with (String c (p +:+ s)). cbn [String.prefix].
  destruct (ascii_dec c c); [exact IH|congruence].
Qed.

Lemma drop_app p s : Text.drop (String.length p) (p +:+ s) = s.
Proof. induction p as [|c p IH]; [reflexivity|exact IH]. Qed.

Lemma replace_at_start p rep s : Text.replace p rep (p +:+ s) = rep +:+ s.
Proof.
  assert (E : forall t, Text.replace p rep t =
                if String.prefix p t then rep +:+ Text.drop (String.length p) t
                else match t with
                     | String c r => String c (Text.replace p rep r)
                     | EmptyString => EmptyString
                     end) by (intros [|c r]; reflexivity).
  now rewrite E, prefix_app, drop_app.
Qed.

End TextFacts.

Section WorktreeLoop.

Implicit Types (st : WorktreeState) (ws : list Worktree) (cur : Worktree).

(** A line [key value] for a key of the listing. *)
Lemma line_key_value key value ws cur :
  (exists c k, key = String c k /\ Text.is_space c = false) ->
  Str.split_on Text.space key = [key] ->
  worktree_line (ws, cur) (key +:+ " " +:+ value) = (ws, worktree_field key value cur).
Proof.
  intros (c & k & -> & Hc) Hk. unfold worktree_line.
  change (String c k +:+ " " +:+ value) with (String c (k +:+ " " +:+ value)).
  destruct (trim_not_blank c (k +:+ " " +:+ value) Hc) as (c' & r' & ->).
  change (String c (k +:+ " " +:+ value)) with (String c k +:+ String Text.space value).
  rewrite split_on_app, Hk. cbn [app fst snd].
  change " " with (String Text.space ""). now rewrite join_split_on.
Qed.

(** A line that is a key alone. *)
Lemma line_key c k ws cur :
  Text.is_space c = false ->
  Str.split_on Text.space (String c k) = [String c k] ->
  worktree_line (ws, cur) (String c k) = (ws, worktree_field (String c k) "" cur).
Proof.
  intros Hc Hk. unfold worktree_line.
  destruct (trim_not_blank c k Hc) as (c' & r' & ->). now rewrite Hk.
Qed.

Lemma fold_paths ls : forall st,
  Forall (fun w => truthy (wt_path w) = true) st.1 ->
  Forall (fun w => truthy (wt_path w) = true) (fold_left worktree_line ls st).1.
Proof.
  induction ls as [|line ls IH]; intros st Hst; [exact Hst|].
  cbn [fold_left]. apply IH. unfold worktree_line.
  destruct (Text.trim line).
  - unfold push_worktree. destruct (truthy (wt_path st.2)) eqn:E; [|exact Hst].
    cbn [fst]. apply Forall_app. split; [exact Hst|]. constructor; [exact E|constructor].
  - destruct (Str.split_on Text.space line); exact Hst.
Qed.

End WorktreeLoop.

(** X5. Every worktree that [parseWorktrees] returns has a path that is not
    empty, whatever the text. *)
Theorem parseWorktrees_paths (output : string) :
  Forall (fun w => truthy (wt_path w) = true) (parseWorktrees output).
Proof.
  unfold parseWorktrees.
  pose proof (fold_paths (Str.split_on Str.nl output) ([], no_worktree)
                (List.Forall_nil _)) as H.
  destruct (truthy (wt_path _)) eqn:E; [|exact H].
  apply Forall_app. split; [exact H|]. constructor; [exact E|constructor].
Qed.

Section Porcelain.

Lemma porcelain_lines w : printable w -> Forall no_newline (porcelain w).
Proof.
  intros [(p & Hp & _ & Hnp) Hb Hc _ _ Hr]. unfold porcelain. rewrite Hp.
  repeat (apply Forall_app; split).
  - constructor; [|constructor]. now apply no_newline_app.
  - destruct (wt_commit w); constructor; [|constructor]. now apply no_newline_app.
  - destruct (wt_branch w); constructor; [|constructor]. now apply no_newline_app.
  - destruct (wt_bare w); constructor; [reflexivity|constructor].
  - destruct (wt_detached w); constructor; [reflexivity|constructor].
  - destruct (wt_prunable w); constructor; [|constructor]. now apply no_newline_app.
  - constructor; [reflexivity|constructor].
Qed.

Ltac key_line :=
  first [ rewrite line_key_value by (first [ now (eexists _, _; split; reflexivity)
                                           | reflexivity ])
        | rewrite line_key by reflexivity ].

Lemma line_worktree ws cur p :
  worktree_line (ws, cur) ("worktree " +:+ p) =
  (ws, mkWorktree (Some p) (wt_branch cur) (wt_commit cur) (wt_bare cur)
                  (wt_detached cur) (wt_prunable cur)).
Proof. change ("worktree " +:+ p) with ("worktree" +:+ " " +:+ p). now key_line. Qed.

Lemma line_HEAD ws cur c :
  worktree_line (ws, cur) ("HEAD " +:+ c) =
  (ws, mkWorktree (wt_path cur) (wt_branch cur) (Some c) (wt_bare cur)
                  (wt_detached cur) (wt_prunable cur)).
Proof. change ("HEAD " +:+ c) with ("HEAD" +:+ " " +:+ c). now key_line. Qed.

Lemma line_branch ws cur b :
  worktree_line (ws, cur) ("branch refs/heads/" +:+ b) =
  (ws, mkWorktree (wt_path cur) (Some b) (wt_commit cur) (wt_bare cur)
                  (wt_detached cur) (wt_prunable cur)).
Proof.
  change ("branch refs/heads/" +:+ b) with ("branch" +:+ " " +:+ "refs/heads/" +:+ b).
  key_line. unfold worktree_field. cbn. now rewrite replace_at_start.
Qed.

Lemma line_bare ws cur :
  worktree_line (ws, cur) "bare" =
  (ws, mkWorktree (wt_path cur) (wt_branch cur) (wt_commit cur) (Some true)
                  (wt_detached cur) (wt_prunable cur)).
Proof. now key_line. Qed.

Lemma line_detached ws cur :
  worktree_line (ws, cur) "detached" =
  (ws, mkWorktree (wt_path cur) (wt_branch cur) (wt_commit cur) (wt_bare cur)
                  (Some true) (wt_prunable cur)).
Proof. now key_line. Qed.

Lemma line_prunable ws cur r :
  worktree_line (ws, cur) ("prunable " +:+ r) =
  (ws, mkWorktree (wt_path cur) (wt_branch cur) (wt_commit cur) (wt_bare cur)
                  (wt_detached cur) (Some r)).
Proof. change ("prunable " +:+ r) with ("prunable" +:+ " " +:+ r). now key_line. Qed.

Lemma line_blank ws cur p : wt_path cur = Some p -> p <> "" ->
  worktree_line (ws, cur) "" = (ws ++ [cur], no_worktree).
Proof.
  intros Hp Hne. unfold worktree_line, push_worktree. cbn [Text.trim Text.trimStart
    Text.trimEnd fst snd]. now rewrite Hp, truthy_Some.
Qed.

(** The lines of one worktree add it to the list. *)
Lemma fold_porcelain w rest ws : printable w ->
  fold_left worktree_line (porcelain w ++ rest) (ws, no_worktree) =
  fold_left worktree_line rest (ws ++ [w], no_worktree).
Proof.
  intros [(p & Hp & Hne & _) _ _ Hbare Hdet _].
  destruct w as [path branch commit bare detached prunable]. cbn in *. subst path.
  unfold porcelain. cbn [wt_path wt_branch wt_commit wt_bare wt_detached wt_prunable text
                         default from_option id].
  destruct commit as [c|], branch as [b|], prunable as [r|],
           Hbare as [-> | ->], Hdet as [-> | ->].
  all: cbn [app fold_left].
  all: rewrite ?line_worktree, ?line_HEAD, ?line_branch, ?line_bare, ?line_detached,
               ?line_prunable.
  all: cbn [wt_path wt_branch wt_commit wt_bare wt_detached wt_prunable no_worktree].
  all: now erewrite line_blank by (reflexivity || assumption).
Qed.

Lemma fold_porcelain_all ws : forall done,
  Forall printable ws ->
  fold_left worktree_line (List.concat (map porcelain ws) ++ [""]) (done, no_worktree) =
  (done ++ ws, no_worktree).
Proof.
  induction ws as [|w ws IH]; intros done H.
  - cbn. now rewrite app_nil_r.
  - apply Forall_cons in H as [Hw Hws]. cbn [map List.concat].
    rewrite <- app_assoc, fold_porcelain by assumption.
    rewrite IH by assumption. now rewrite <- app_assoc.
Qed.

End Porcelain.

Lemma porcelain_parsed (ws : list Worktree) :
  Forall printable ws -> parseWorktrees (porcelain_text ws) = ws.
Proof.
  intros H. unfold parseWorktrees, porcelain_text.
  rewrite split_join.
  - now rewrite fold_porcelain_all.
  - destruct (List.concat (map porcelain ws)); discriminate.
  - apply Forall_app. split; [|constructor; [reflexivity|constructor]].
    apply Forall_concat. apply Forall_map. eapply Forall_impl; [exact H|].
    apply porcelain_lines.
Qed.

(** X6. Round trip of the listing.  For worktrees with a path that is not
    empty, texts without newline and flags that are set or absent,
    [parseWorktrees] gives back the worktrees from the text that
    [git worktree list --porcelain] prints for them; the path may hold
    spaces and [refs/heads/] is taken off the branch. *)
Theorem parseWorktrees_porcelain (ws : list Worktree) :
  Forall printable ws -> parseWorktrees (porcelain_text ws) = ws.
Proof. apply porcelain_parsed. Qed.

(** X7. The listing end to end: when git prints the porcelain listing of
    printable worktrees for the repository, [getWorktrees] returns those
    worktrees after the one call [git worktree list --porcelain]. *)
Theorem getWorktrees_porcelain env repo w (ws : list Worktree) :
  repo <> "" -> Forall printable ws ->
  fails env (trace w) (GitRaw repo ["worktree"; "list"; "--porcelain"]) = None ->
  raw_output env (trace w) repo ["worktree"; "list"; "--porcelain"] = porcelain_text ws ->
  api_getWorktrees env repo w =
  (Ok (WtList ws), logged (GitRaw repo ["worktree"; "list"; "--porcelain"]) w).
Proof.
  intros Hrepo Hws Hf Hout.
  unfold api_getWorktrees, route_worktree_list, wt_json_or_throw, try_catch, bind, ret, text.
  rewrite truthy_Some by assumption. cbn [negb default from_option id].
  unfold git_raw, perform, bind, ret. rewrite Hf, Hout. cbn.
  now rewrite porcelain_parsed.
Qed.

(** ** The routes and the client wrappers *)

#[local] Arguments git_raw : simpl never.
#[local] Arguments git_add : simpl never.
#[local] Arguments git_commit : simpl never.
#[local] Arguments git_status : simpl never.
#[local] Arguments git_log : simpl never.
#[local] Arguments parseWorktrees : simpl never.

Ltac route_cases :=
  unfold answered, wt_answered, try_catch, bind, ret;
  repeat match goal with
         | |- context [truthy ?f] => destruct (truthy f); cbn [negb orb andb]
         end;
  repeat match goal with
         | |- context [let (_, _) := ?m ?w in _] => destruct (m w) as [[?|?] ?]
         | |- context [match ?m ?w with _ => _ end] =>
             lazymatch type of (m w) with
             | (Res _ * _)%type => destruct (m w) as [[?|?] ?]
             end
         end;
  cbn; eauto 6.

(** X8. No exception leaves a route, whatever the request holds and whatever
    git and the file system do: each of the nine routes answers, with
    status 200, 400 or 500. *)
Theorem routes_always_answer env w :
  (forall r f s, answered (route_diff env r f s w).1) /\
  (forall r f h, answered (route_stage env r f h w).1) /\
  (forall r c, answered (route_fixup env r c w).1) /\
  (forall r c, answered (route_rebase env r c w).1) /\
  (forall r, answered (route_status env r w).1) /\
  (forall r n, answered (route_log env r n w).1) /\
  (forall r, wt_answered (route_worktree_list env r w).1) /\
  (forall r p b c, wt_answered (route_worktree_add env r p b c w).1) /\
  (forall r p f, wt_answered (route_worktree_remove env r p f w).1).
Proof.
  repeat split; intros.
  - unfold route_diff. route_cases.
  - unfold route_stage. route_cases.
  - unfold route_fixup. route_cases.
  - unfold route_rebase. route_cases.
  - unfold route_status. route_cases.
  - unfold route_log. route_cases.
  - unfold route_worktree_list. route_cases.
  - unfold route_worktree_add. route_cases.
  - unfold route_worktree_remove. route_cases.
Qed.

Ltac reject :=
  intros; unfold try_catch, ret;
  repeat match goal with
         | H : _ \/ _ |- _ => destruct H
         end;
  repeat match goal with
         | H : truthy _ = false |- _ => rewrite H
         end;
  cbn [negb orb]; rewrite ?orb_true_r; reflexivity.

(** X9. A request that lacks a required field, or holds the empty string for
    it, is answered with status 400 and the text of its route before
    anything is called: the world stays as it was. *)
Theorem routes_reject_missing_fields env w :
  (forall r f s, truthy r = false \/ truthy f = false ->
     route_diff env r f s w =
     (Ok (bad_request "Repository path and file path are required"), w)) /\
  (forall r f h, truthy r = false \/ truthy f = false ->
     route_stage env r f h w =
     (Ok (bad_request "Repository path and file path are required"), w)) /\
  (forall r c, truthy r = false \/ truthy c = false ->
     route_fixup env r c w =
     (Ok (bad_request "Repository path and target commit are required"), w)) /\
  (forall r c, truthy r = false \/ truthy c = false ->
     route_rebase env r c w =
     (Ok (bad_request "Repository path and target commit are required"), w)) /\
  (forall r, truthy r = false ->
     route_status env r w = (Ok (bad_request "Repository path is required"), w)) /\
  (forall r n, truthy r = false ->
     route_log env r n w = (Ok (bad_request "Repository path is required"), w)) /\
  (forall r, truthy r = false ->
     route_worktree_list env r w =
     (Ok (wt_bad_request "Repository path is required"), w)) /\
  (forall r p b c, truthy r = false \/ truthy p = false \/ truthy b = false ->
     route_worktree_add env r p b c w =
     (Ok (wt_bad_request "Repository path, worktree path, and branch are required"), w)) /\
  (forall r p f, truthy r = false \/ truthy p = false ->
     route_worktree_remove env r p f w =
     (Ok (wt_bad_request "Repository path and worktree path are required"), w)).
Proof.
  repeat split.
  - unfold route_diff. reject.
  - unfold route_stage. reject.
  - unfold route_fixup. reject.
  - unfold route_rebase. reject.
  - unfold route_status. reject.
  - unfold route_log. reject.
  - unfold route_worktree_list. reject.
  - unfold route_worktree_add. reject.
  - unfold route_worktree_remove. reject.
Qed.

Ltac failing :=
  intros; unfold try_catch, bind, ret, text, default;
  rewrite ?truthy_Some by assumption; cbn [negb orb from_option id];
  unfold git_raw, git_add, git_commit, git_status, git_log, perform, bind, ret;
  repeat match goal with
         | b : bool |- _ => destruct b
         end;
  unfold diff_args, worktree_add_args, worktree_remove_args in *;
  cbn [app negb] in *;
  repeat match goal with
         | H : fails _ _ _ = Some _ |- _ => rewrite H
         end;
  reflexivity.

(** X10. When the git call of a route fails, the route makes no other call and
    answers with status 500, the text of the route as [error] and the
    message of git as [details]. *)
Theorem routes_report_failures env w repo m :
  repo <> "" ->
  (forall file s, file <> "" ->
     fails env (trace w) (GitRaw repo (diff_args file s)) = Some m ->
     route_diff env (Some repo) (Some file) s w =
     (Ok (server_error "Failed to get file diff" m),
      logged (GitRaw repo (diff_args file s)) w)) /\
  (forall file hunk, file <> "" -> truthy hunk = false ->
     fails env (trace w) (GitAdd repo file) = Some m ->
     route_stage env (Some repo) (Some file) hunk w =
     (Ok (server_error "Failed to stage changes" m), logged (GitAdd repo file) w)) /\
  (forall commit, commit <> "" ->
     fails env (trace w)
       (GitCommit repo ("fixup! " +:+ commit) [] [("--fixup", commit)]) = Some m ->
     route_fixup env (Some repo) (Some commit) w =
     (Ok (server_error "Failed to create fixup commit" m),
      logged (GitCommit repo ("fixup! " +:+ commit) [] [("--fixup", commit)]) w)) /\
  (forall commit, commit <> "" ->
     fails env (trace w)
       (GitRaw repo ["rebase"; "-i"; "--autosquash"; commit +:+ "^"]) = Some m ->
     route_rebase env (Some repo) (Some commit) w =
     (Ok (server_error "Failed to rebase" m),
      logged (GitRaw repo ["rebase"; "-i"; "--autosquash"; commit +:+ "^"]) w)) /\
  (fails env (trace w) (GitStatus repo) = Some m ->
     route_status env (Some repo) w =
     (Ok (server_error "Failed to get repository status" m), logged (GitStatus repo) w)) /\
  (forall n, fails env (trace w) (GitLog repo n) = Some m ->
     route_log env (Some repo) n w =
     (Ok (server_error "Failed to get commit log" m), logged (GitLog repo n) w)) /\
  (fails env (trace w) (GitRaw repo ["worktree"; "list"; "--porcelain"]) = Some m ->
     route_worktree_list env (Some repo) w =
     (Ok (wt_server_error "Failed to list worktrees" m),
      logged (GitRaw repo ["worktree"; "list"; "--porcelain"]) w)) /\
  (forall path branch create, path <> "" -> branch <> "" ->
     fails env (trace w) (GitRaw repo (worktree_add_args path branch create)) = Some m ->
     route_worktree_add env (Some repo) (Some path) (Some branch) create w =
     (Ok (wt_server_error "Failed to create worktree" m),
      logged (GitRaw repo (worktree_add_args path branch create)) w)) /\
  (forall path force, path <> "" ->
     fails env (trace w) (GitRaw repo (worktree_remove_args path force)) = Some m ->
     route_worktree_remove env (Some repo) (Some path) force w =
     (Ok (wt_server_error "Failed to remove worktree" m),
      logged (GitRaw repo (worktree_remove_args path force)) w)).
Proof.
  intros Hrepo. repeat split.
  - unfold route_diff. failing.
  - unfold route_stage. intros file hunk Hf Hh Hm.
    unfold try_catch, bind, ret, text, default.
    rewrite !truthy_Some by assumption. rewrite Hh. cbn [negb orb from_option id].
    unfold git_add, perform. rewrite Hm. reflexivity.
  - unfold route_fixup. failing.
  - unfold route_rebase. failing.
  - unfold route_status. failing.
  - unfold route_log. failing.
  - unfold route_worktree_list. failing.
  - unfold route_worktree_add. failing.
  - unfold route_worktree_remove. failing.
Qed.

Ltac answer_cases :=
  intros;
  unfold json_or_throw, wt_json_or_throw, try_catch, bind, ret, throw in *;
  repeat match goal with
         | H : context [truthy ?f] |- _ => destruct (truthy f); cbn [negb orb andb] in H
         end;
  repeat match goal with
         | H : context [let (_, _) := ?m ?w in _] |- _ => destruct (m w) as [[?|?] ?]
         | H : context [match ?m ?w with _ => _ end] |- _ =>
             lazymatch type of (m w) with
             | (Res _ * _)%type => destruct (m w) as [[?|?] ?]
             end
         end;
  cbn in *;
  repeat match goal with
         | H : Ok _ = Ok ?r |- _ => is_var r; injection H as <-; cbn in *
         end;
  match goal with
  | H : Throw _ = Throw _ |- _ => injection H as <-; cbn; tauto
  | H : Ok _ = Throw _ |- _ => discriminate H
  end.

(** X11. What a wrapper of the client makes of an answer of its route:
    when it throws, it throws the [error] text of the answer, which is
    one of two fixed texts per route; the [details] that carry the
    message of git never reach the caller. *)
Theorem wrappers_throw_route_texts env w w' e response wt_response :
  (forall r, (route_status env r w).1 = Ok response ->
     (json_or_throw "Failed to get repository status" response w').1 = Throw e ->
     In e ["Repository path is required"; "Failed to get repository status"]) /\
  (forall r n, (route_log env r n w).1 = Ok response ->
     (json_or_throw "Failed to get commit log" response w').1 = Throw e ->
     In e ["Repository path is required"; "Failed to get commit log"]) /\
  (forall r f s, (route_diff env r f s w).1 = Ok response ->
     (json_or_throw "Failed to get file diff" response w').1 = Throw e ->
     In e ["Repository path and file path are required"; "Failed to get file diff"]) /\
  (forall r f h, (route_stage env r f h w).1 = Ok response ->
     (json_or_throw "Failed to stage changes" response w').1 = Throw e ->
     In e ["Repository path and file path are required"; "Failed to stage changes"]) /\
  (forall r c, (route_fixup env r c w).1 = Ok response ->
     (json_or_throw "Failed to create fixup commit" response w').1 = Throw e ->
     In e ["Repository path and target commit are required";
           "Failed to create fixup commit"]) /\
  (forall r c, (route_rebase env r c w).1 = Ok response ->
     (json_or_throw "Failed to rebase" response w').1 = Throw e ->
     In e ["Repository path and target commit are required"; "Failed to rebase"]) /\
  (forall r, (route_worktree_list env r w).1 = Ok wt_response ->
     (wt_json_or_throw "Failed to list worktrees" wt_response w').1 = Throw e ->
     In e ["Repository path is required"; "Failed to list worktrees"]) /\
  (forall r p b c, (route_worktree_add env r p b c w).1 = Ok wt_response ->
     (wt_json_or_throw "Failed to create worktree" wt_response w').1 = Throw e ->
     In e ["Repository path, worktree path, and branch are required";
           "Failed to create worktree"]) /\
  (forall r p f, (route_worktree_remove env r p f w).1 = Ok wt_response ->
     (wt_json_or_throw "Failed to remove worktree" wt_response w').1 = Throw e ->
     In e ["Repository path and worktree path are required";
           "Failed to remove worktree"]).
Proof.
  repeat split.
  - unfold route_status. answer_cases.
  - unfold route_log. answer_cases.
  - unfold route_diff. answer_cases.
  - unfold route_stage. answer_cases.
  - unfold route_fixup. answer_cases.
  - unfold route_rebase. answer_cases.
  - unfold route_worktree_list. answer_cases.
  - unfold route_worktree_add. answer_cases.
  - unfold route_worktree_remove. answer_cases.
Qed.

(** ** The handlers of the component *)

#[local] Arguments api_getStatus : simpl never.
#[local] Arguments api_getLog : simpl never.
#[local] Arguments api_stageChanges : simpl never.

Section Handlers.

Context (env : Env) (repo : string).

Lemma loadData_run s w :
  loadData env repo (s, w) =
  (Ok tt,
   (loaded (api_getStatus env repo w).1
           (api_getLog env repo 50 (api_getStatus env repo w).2).1 s,
    (api_getLog env repo 50 (api_getStatus env repo w).2).2)).
Proof.
  unfold loadData, loaded, bind, try_catch, finally, settled, call, set, ret, throw.
  cbn [fst snd].
  destruct (api_getStatus env repo w) as [[p1|e1] w1]; cbn [fst snd];
    destruct (api_getLog env repo 50 w1) as [[p2|e2] w2]; cbn [fst snd]; try reflexivity.
  destruct (length (body_files p1) =? 0)%nat; reflexivity.
Qed.

Lemma handleFileSelect_run file s w :
  handleFileSelect env repo file (s, w) =
  match api_getDiff env repo file false w with
  | (Ok p, w1) =>
      (Ok tt,
       (setLoading false
          (setStep select_hunks
             (setCurrentDiff (Some (body_filePath p, body_hunks p)) (file_picked file s))),
        w1))
  | (Throw e, w1) => (Ok tt, (setLoading false (setError (Some e) (file_picked file s)), w1))
  end.
Proof.
  unfold handleFileSelect, file_picked, bind, try_catch, finally, call, set, ret.
  cbn [fst snd].
  destruct (api_getDiff env repo file false w) as [[p|e] w1]; reflexivity.
Qed.

End Handlers.

Lemma toggle_facts (i : nat) (l : list nat) :
  (forall j, In j (toggle i l) <-> (j = i /\ ~ In i l) \/ (j <> i /\ In j l)) /\
  (NoDup l -> NoDup (toggle i l)).
Proof.
  unfold toggle. destruct (existsb (Nat.eqb i) l) eqn:E.
  - apply List.existsb_exists in E as (x & Hx & Ex). apply Nat.eqb_eq in Ex. subst x.
    split.
    + intros j. rewrite List.filter_In, negb_true_iff, Nat.eqb_neq. split.
      * intros [Hj Hne]. right. split; [congruence|exact Hj].
      * intros [[_ Hn]|[Hne Hj]]; [contradiction|]. split; [exact Hj|congruence].
    + intros Hnd. apply NoDup_ListNoDup. apply List.NoDup_filter.
      now apply NoDup_ListNoDup.
  - assert (Hni : ~ In i l).
    { intros Hin. apply not_true_iff_false in E. apply E.
      apply List.existsb_exists. exists i. split; [exact Hin|apply Nat.eqb_refl]. }
    split.
    + intros j. rewrite List.in_app_iff. cbn [In]. split.
      * intros [Hj|[<-|[]]].
        -- right. split; [|exact Hj]. intros ->. contradiction.
        -- left. auto.
      * intros [[-> _]|[_ Hj]]; auto.
    + intros Hnd. apply NoDup_app. repeat split.
      * exact Hnd.
      * intros x Hx Hx'. apply list_elem_of_In in Hx. apply list_elem_of_In in Hx'.
        cbn in Hx'. destruct Hx' as [<-|[]]. contradiction.
      * apply NoDup_singleton.
Qed.

Lemma handleFileSelect_facts env repo file s w :
  let a := run (handleFileSelect env repo file) (s, w) in
  let ask := GitRaw repo (diff_args file false) in
  selectedFile a.1 = Some file /\ selectedHunks a.1 = [] /\
  selectedCommit a.1 = selectedCommit s /\ loading a.1 = false /\
  ((error a.1 = None /\ step a.1 = select_hunks /\
    trace a.2 = trace w ++ [ask] /\ fails env (trace w) ask = None /\
    currentDiff a.1 =
      Some (file, parseDiff (raw_output env (trace w) repo (diff_args file false)))) \/
   (exists e, error a.1 = Some e /\ step a.1 = step s /\
              currentDiff a.1 = currentDiff s)) /\
  (repo <> "" -> file <> "" -> fails env (trace w) ask = None -> error a.1 = None).
Proof.
  cbn zeta. unfold run. rewrite handleFileSelect_run.
  unfold api_getDiff, route_diff, json_or_throw, try_catch, bind, ret, throw, text, diff_args.
  destruct repo as [|c r]; [cbn; repeat split; eauto; congruence|].
  destruct file as [|c' f]; [cbn; repeat split; eauto; congruence|].
  cbn [truthy negb orb default from_option id app].
  unfold git_raw, bind, ret, perform. cbn.
  destruct (fails env (trace w) _) eqn:E; cbn; repeat split; eauto; try congruence.
  left. repeat split.
Qed.

Lemma loadData_facts env repo s w :
  repo <> "" ->
  let out := loadData env repo (s, w) in
  let a := out.2 in
  out.1 = Ok tt /\
  trace a.2 = trace w ++ [GitStatus repo; GitLog repo 50] /\
  loading a.1 = false /\ step a.1 = step s /\ success a.1 = success s /\
  selectedFile a.1 = selectedFile s /\ selectedHunks a.1 = selectedHunks s /\
  selectedCommit a.1 = selectedCommit s /\ currentDiff a.1 = currentDiff s /\
  (error a.1 = None <->
   fails env (trace w) (GitStatus repo) = None /\
   fails env (trace w ++ [GitStatus repo]) (GitLog repo 50) = None /\
   files a.1 <> []).
Proof.
  intros Hrepo. cbn zeta. rewrite loadData_run. cbn [fst snd].
  unfold api_getStatus, api_getLog, route_status, route_log, json_or_throw.
  unfold try_catch, bind, ret, throw, text.
  rewrite !truthy_Some by assumption. cbn [negb default from_option id].
  unfold git_status, git_log, bind, ret, perform.
  destruct (fails env (trace w) (GitStatus repo)) as [m1|] eqn:E1; cbn;
    destruct (fails env (trace w ++ [GitStatus repo]) (GitLog repo 50)) as [m2|] eqn:E2; cbn;
    rewrite <- ?app_assoc; cbn; repeat split; try reflexivity; try discriminate;
    try (intros (H1 & H2 & H3); discriminate).
  all: unfold loaded; cbn.
  all: match goal with |- context [(length ?L =? 0)%nat] => destruct L end; cbn.
  all: try discriminate; try reflexivity.
  intros (_ & _ & H). congruence.
Qed.

Section Staging.

Context (env : Env) (repo : string).








End Staging.

Section Squash.

Context (env : Env) (repo : string).

Lemma loaded_keeps r1 r2 s :
  loading (loaded r1 r2 s) = false /\ step (loaded r1 r2 s) = step s /\
  success (loaded r1 r2 s) = success s /\
  selectedFile (loaded r1 r2 s) = selectedFile s /\
  selectedHunks (loaded r1 r2 s) = selectedHunks s /\
  selectedCommit (loaded r1 r2 s) = selectedCommit s /\
  currentDiff (loaded r1 r2 s) = currentDiff s.
Proof.
  unfold loaded. destruct r1 as [p1|e1], r2 as [p2|e2]; cbn; repeat split.
  all: destruct (length (body_files p1) =? 0)%nat; reflexivity.
Qed.

Lemma squash_done_loaded commit r1 r2 s :
  squashed commit (setLoading false (loaded r1 r2 (squash_done commit s))).
Proof.
  destruct (loaded_keeps r1 r2 (squash_done commit s)) as (_ & H1 & H2 & H3 & H4 & H5 & H6).
  unfold squashed. cbn [loading step success selectedFile selectedHunks selectedCommit
                        currentDiff setLoading].
  rewrite H1, H2, H3, H4, H5, H6. repeat split; reflexivity.
Qed.

(** The state cells after the handler, once its validation has passed. *)
Lemma handleSquash_ends s w file commit :
  selectedFile s = Some file -> file <> "" ->
  selectedCommit s = Some commit -> commit <> "" ->
  let a := run (handleSquash env repo) (s, w) in
  (exists e, a.1 = squash_failed e s) \/ squashed commit a.1.
Proof.
  intros Hf Hfile Hc Hcommit. cbn zeta. unfold run.
  rewrite (handleSquash_steps env repo s w file commit) by assumption.
  destruct (stage_selection env repo s w) as [[[]|e] w1]; cbn [fst snd]; [|eauto].
  destruct (api_createFixup env repo commit w1) as [[?|e] w2]; cbn [fst snd]; [|eauto].
  destruct (api_rebase env repo commit w2) as [[?|e] w3]; cbn [fst snd]; [|eauto].
  right. rewrite loadData_run. cbn [fst snd]. apply squash_done_loaded.
Qed.

Hypothesis repo_given : repo <> "".





End Squash.

Section Invariant.

Context (env : Env) (repo : string).

Lemma coherent_initial : coherent initial.
Proof.
  split; cbn.
  - reflexivity.
  - discriminate.
  - intros H. now contradict H.
  - constructor.
  - intros i [].
Qed.

(** A state with the step, the selection and the diff of a coherent one
    is coherent once it is no longer loading. *)
Lemma coherent_same_cells s s' :
  coherent s -> loading s' = false -> step s' = step s ->
  selectedHunks s' = selectedHunks s -> currentDiff s' = currentDiff s ->
  coherent s'.
Proof.
  intros [H1 H2 H3 H4 H5] Hl Hs Hh Hd.
  split; rewrite ?Hs, ?Hh, ?Hd; assumption.
Qed.

Lemma coherent_cleared s :
  loading s = false -> step s = select_files -> selectedHunks s = [] -> coherent s.
Proof.
  intros Hl Hs Hh. split; rewrite ?Hs, ?Hh; try assumption.
  - discriminate.
  - congruence.
  - constructor.
  - intros i [].
Qed.

Lemma loadData_coherent s w :
  coherent s -> coherent (run (loadData env repo) (s, w)).1.
Proof.
  intros Hs. unfold run. rewrite loadData_run. cbn [fst snd].
  match goal with |- coherent (loaded ?r1 ?r2 s) =>
    destruct (loaded_keeps r1 r2 s) as (Hl & Hst & _ & _ & Hh & _ & Hd)
  end.
  eapply coherent_same_cells; eauto.
Qed.

Lemma handleFileSelect_coherent file s w :
  coherent s -> coherent (run (handleFileSelect env repo file) (s, w)).1.
Proof.
  intros [H1 H2 H3 H4 H5].
  destruct (handleFileSelect_facts env repo file s w) as (_ & Hh & _ & Hl & Hcase & _).
  cbn zeta in *.
  destruct Hcase as [(He & Hst & _ & _ & Hd)|(e & He & Hst & Hd)].
  - split; rewrite ?Hh, ?Hd, ?Hst; try assumption; try discriminate.
    + constructor.
    + intros i [].
  - split; rewrite ?Hh, ?Hd, ?Hst; try assumption.
    + constructor.
    + intros i [].
Qed.

Lemma handleHunkToggle_coherent i s w :
  coherent s -> hunk_listed s i = true ->
  coherent (run (handleHunkToggle i) (s, w)).1.
Proof.
  intros [H1 H2 H3 H4 H5] Hi. unfold run, handleHunkToggle, set. cbn [fst snd].
  destruct (toggle_facts i (selectedHunks s)) as [Hin Hnd].
  split; cbn; try assumption.
  - now apply Hnd.
  - intros j Hj. apply Hin in Hj as [[-> _]|[_ Hj]]; [|now apply H5].
    unfold hunk_listed in Hi.
    destruct (step s); try discriminate.
    destruct (currentDiff s) as [[f hunks]|]; [|discriminate].
    exists (f, hunks). split; [reflexivity|]. now apply Nat.ltb_lt in Hi.
Qed.

Lemma handleSquash_coherent s w :
  coherent s -> coherent (run (handleSquash env repo) (s, w)).1.
Proof.
  intros Hs.
  destruct (negb (truthy (selectedFile s)) || negb (truthy (selectedCommit s))) eqn:Eg.
  - unfold run, handleSquash. cbn [fst snd]. rewrite Eg. cbn.
    apply (coherent_same_cells s); [exact Hs|apply Hs|reflexivity..].
  - apply orb_false_elim in Eg as [Ef Ec]. apply negb_false_iff in Ef, Ec.
    destruct (selectedFile s) as [[|c file]|] eqn:Hf; try discriminate.
    destruct (selectedCommit s) as [[|c' commit]|] eqn:Hc; try discriminate.
    destruct (handleSquash_ends env repo s w _ _ Hf ltac:(discriminate)
                Hc ltac:(discriminate)) as [(e & ->)|Hsq].
    + apply (coherent_same_cells s); [exact Hs|reflexivity..].
    + destruct Hsq as (Hl & Hst & _ & _ & Hh & _ & _). now apply coherent_cleared.
Qed.

Lemma click_primary_coherent s w :
  coherent s -> coherent (run (click_primary env repo) (s, w)).1.
Proof.
  intros Hs. unfold run, click_primary. cbn [fst snd].
  destruct (primary_shown s && negb (primary_disabled s)) eqn:Eg; [|exact Hs].
  apply andb_prop in Eg as [Eshown _].
  destruct (step s) eqn:Est; try exact Hs.
  - cbn. destruct Hs as [H1 H2 H3 H4 H5]. split; cbn; try assumption.
    + discriminate.
    + intros _. apply H3. rewrite Est. discriminate.
  - apply handleSquash_coherent. exact Hs.
Qed.

Lemma click_back_coherent s w :
  coherent s -> coherent (run (click_back) (s, w)).1.
Proof.
  intros Hs. unfold run, click_back. cbn [fst snd].
  destruct (primary_shown s) eqn:Eshown; [|exact Hs].
  destruct (step s) eqn:Est; try exact Hs.
  - cbn. apply coherent_cleared; [apply Hs|reflexivity..].
  - cbn. destruct Hs as [H1 H2 H3 H4 H5]. split; cbn; try assumption.
    + discriminate.
    + intros _. apply H3. rewrite Est. discriminate.
Qed.

Lemma dispatch_coherent ev s w :
  coherent s -> coherent (run (dispatch env repo ev) (s, w)).1.
Proof.
  intros Hs. unfold run, dispatch. cbn [fst snd].
  destruct ev as [|file|i|commit| |].
  - now apply loadData_coherent.
  - destruct (negb (spinner s) && file_listed s file); [|exact Hs].
    now apply handleFileSelect_coherent.
  - destruct (negb (spinner s) && hunk_listed s i) eqn:Eg; [|exact Hs].
    apply andb_prop in Eg as [_ Eg]. now apply handleHunkToggle_coherent.
  - destruct (negb (spinner s) && commit_listed s commit); [|exact Hs].
    cbn. destruct Hs as [H1 H2 H3 H4 H5]. split; assumption.
  - destruct (negb (spinner s)); [|exact Hs]. now apply click_primary_coherent.
  - destruct (negb (spinner s)); [|exact Hs]. now apply click_back_coherent.
Qed.

(** The handler in its two parts is the handler. *)
Lemma handleFileSelect_split file a :
  handleFileSelect env repo file a =
  (handleFileSelect_begin file ;;
   answer <- call (settled (api_getDiff env repo file false)) ;;
   handleFileSelect_end answer) a.
Proof.
  destruct a as [s w].
  unfold handleFileSelect, handleFileSelect_begin, handleFileSelect_end,
    bind, try_catch, finally, settled, call, set, ret, throw.
  cbn [fst snd].
  destruct (api_getDiff env repo file false w) as [[p|e] w1]; reflexivity.
Qed.

End Invariant.

(** X12. The hunk selection behaves as a set under [handleHunkToggle]: an
    index is selected afterwards exactly when it is the toggled one and
    was not selected, or another one that was; no index is held twice. *)
Theorem toggle_set (i : nat) (l : list nat) :
  (forall j, In j (toggle i l) <-> (j = i /\ ~ In i l) \/ (j <> i /\ In j l)) /\
  (NoDup l -> NoDup (toggle i l)).
Proof. apply toggle_facts. Qed.

(** X13. Picking a file: whatever happens to the request for its diff,
    the file is the selected one, no hunk is selected, the commit stays
    and the handler is no longer loading.  Either no error is shown, and
    then the step is the hunk step, the one call made is [git diff] of
    the file, which did not fail, and the diff held is that of the file
    with the headers and the lines of the hunks parsed from what git
    printed; or an error is shown, and step and diff are those of
    before.  With the repository and the file given and [git diff] not
    failing, no error is shown. *)
Theorem handleFileSelect_outcome env repo file s w :
  let a := run (handleFileSelect env repo file) (s, w) in
  let ask := GitRaw repo (diff_args file false) in
  let printed := raw_output env (trace w) repo (diff_args file false) in
  selectedFile a.1 = Some file /\ selectedHunks a.1 = [] /\
  selectedCommit a.1 = selectedCommit s /\ loading a.1 = false /\
  ((error a.1 = None /\ step a.1 = select_hunks /\
    trace a.2 = trace w ++ [ask] /\ fails env (trace w) ask = None /\
    exists hunks, currentDiff a.1 = Some (file, hunks) /\
                  map header hunks = map header (parseDiff printed) /\
                  map lines hunks = map lines (parseDiff printed)) \/
   (exists e, error a.1 = Some e /\ step a.1 = step s /\
              currentDiff a.1 = currentDiff s)) /\
  (repo <> "" -> file <> "" -> fails env (trace w) ask = None -> error a.1 = None).
Proof.
  destruct (handleFileSelect_facts env repo file s w)
    as (H1 & H2 & H3 & H4 & Hcase & Hlive).
  cbn zeta in *. repeat split; try assumption.
  destruct Hcase as [(He & Hst & Ht & Hf & Hd)|Hfail]; [left|now right].
  repeat split; try assumption. eauto.
Qed.

(** X14. Loading the data: the handler asks for the status and for the log in
    any case, never throws, ends not loading and leaves step, selection,
    diff and success message alone.  An error is shown exactly when a
    request failed or the status lists no file. *)
Theorem loadData_outcome env repo s w :
  repo <> "" ->
  let out := loadData env repo (s, w) in
  let a := out.2 in
  out.1 = Ok tt /\
  trace a.2 = trace w ++ [GitStatus repo; GitLog repo 50] /\
  loading a.1 = false /\ step a.1 = step s /\ success a.1 = success s /\
  selectedFile a.1 = selectedFile s /\ selectedHunks a.1 = selectedHunks s /\
  selectedCommit a.1 = selectedCommit s /\ currentDiff a.1 = currentDiff s /\
  (error a.1 = None <->
   fails env (trace w) (GitStatus repo) = None /\
   fails env (trace w ++ [GitStatus repo]) (GitLog repo 50) = None /\
   files a.1 <> []).
Proof. apply loadData_facts. Qed.


(** X16. In the runs in which the actions are taken one at a time, each
    after the handler of the one before has settled, the component is
    never left loading or in the step confirm; past the file list a diff
    is loaded; the selected hunk indices are distinct, and each of them
    is the index of a hunk of the loaded diff. *)
Theorem sequential_coherent env repo (a : App) :
  sequential env repo a -> coherent a.1.
Proof.
  induction 1 as [w|a ev Ha IH].
  - apply coherent_initial.
  - destruct a as [s w]. now apply dispatch_coherent.
Qed.

(** X17. An action taken while a diff is awaited breaks this.  With the
    hunks of one file on the page, the user clicks another file and,
    before its diff has arrived, the button of hunk [i]; the diff that
    arrives has no hunk [i].  Then [i] stays selected beside the new
    diff, and when the user continues, picks a commit and squashes, the
    handler reads the lines of a hunk that is not there: the error shown
    is the TypeError, and the only call made is the [git diff]. *)
Theorem overlapping_click_selects_missing_hunk env repo s w fileA old fileB i commit :
  repo <> "" -> fileB <> "" -> commit <> "" ->
  step s = select_hunks -> currentDiff s = Some (fileA, old) -> files s <> [] ->
  existsb (fun c => String.eqb (hash c) commit) (commits s) = true ->
  (i < length old)%nat ->
  fails env (trace w) (GitRaw repo (diff_args fileB false)) = None ->
  (length (parseDiff (raw_output env (trace w) repo (diff_args fileB false))) <= i)%nat ->
  let a := run (overlapped_session env repo fileB i commit) (s, w) in
  selectedHunks a.1 = [i] /\
  currentDiff a.1 =
    Some (fileB, parseDiff (raw_output env (trace w) repo (diff_args fileB false))) /\
  error a.1 = Some TypeError_lines /\
  trace a.2 = trace w ++ [GitRaw repo (diff_args fileB false)].
Proof.
  intros Hrepo HfileB Hcommit Hstep Hdiff Hfiles Hlisted Hi Hfails Hnew. cbn zeta.
  set (new := parseDiff _) in *.
  assert (Hget : api_getDiff env repo fileB false w =
                 (Ok (DiffBody fileB (raw_output env (trace w) repo (diff_args fileB false)) new),
                  logged (GitRaw repo (diff_args fileB false)) w)).
  { unfold api_getDiff, route_diff, json_or_throw, try_catch, bind, ret, throw, text,
      diff_args in *.
    rewrite !truthy_Some by assumption. cbn [negb orb default from_option id app] in *.
    unfold git_raw, bind, ret, perform. cbn. now rewrite Hfails. }
  destruct s as [l e su st fs cs sf sh sc cd].
  cbn [step currentDiff files commits] in Hstep, Hdiff, Hfiles, Hlisted. subst st cd.
  destruct fs as [|f0 fs]; [congruence|].
  destruct commit as [|c0 commit]; [congruence|].
  apply Nat.ltb_lt in Hi.
  unfold run, overlapped_session, handleFileSelect_begin, bind, set, ret, call, settled.
  cbn [fst snd]. rewrite Hget. cbn [fst snd].
  (* the click on hunk [i] of the old diff *)
  unfold dispatch at 1, spinner, hunk_listed. cbn -[Nat.ltb]. rewrite Hi.
  unfold handleHunkToggle, set, toggle. cbn.
  (* the diff arrives, the user continues and picks the commit *)
  rewrite Hlisted.
  unfold handleCommitSelect, set, spinner, click_primary, primary_shown, primary_disabled.
  cbn.
  (* squash *)
  match goal with
  | |- context [handleSquash env repo (?s0, ?w0)] =>
      rewrite (handleSquash_steps env repo s0 w0 fileB (String c0 commit))
        by (reflexivity || assumption || discriminate)
  end.
  unfold stage_selection. cbn.
  assert (Hnone : new !! i = None) by (apply lookup_ge_None; lia).
  rewrite Hnone. cbn. repeat split.
Qed.

(** ** The theorems above at concrete inputs *)

Lemma header_start_printed_witness :
  0 <= 10 /\ count_ok (Some 7) /\ 0 <= 9007199254740993 /\ count_ok None /\
  header_start (hunk_header 10 (Some 7) 9007199254740993 None " fn main() {")
    = 9007199254740992 /\
  (9007199254740993 <= 2 ^ 53 ->
   header_start (hunk_header 10 (Some 7) 9007199254740993 None " fn main() {")
     = 9007199254740993).
Proof.
  assert (H1 : 0 <= 10) by lia.
  assert (H2 : count_ok (Some 7)) by (cbn; lia).
  assert (H3 : 0 <= 9007199254740993) by lia.
  assert (H4 : count_ok None) by exact I.
  repeat (split; [assumption|]).
  exact (header_start_printed 10 (Some 7) 9007199254740993 None " fn main() {"
           H1 H2 H3 H4).
Defined.

Lemma parseDiff_app_witness :
  let before := "diff --git a/a.txt b/a.txt" +:+ Str.NL +:+ "@@ -1 +1 @@" +:+ Str.NL +:+ "+b" in
  let after := "@@ -5,0 +6 @@" +:+ Str.NL +:+ "+c" in
  is_header after = true /\
  parseDiff (before +:+ Str.NL +:+ after) = parseDiff before ++ parseDiff after.
Proof.
  intros before after.
  assert (H : is_header after = true) by reflexivity.
  split; [exact H|]. exact (parseDiff_app before after H).
Defined.

Lemma listed_trees_printable : Forall printable [main_tree; detached_tree].
Proof.
  apply List.Forall_cons; [|apply List.Forall_cons; [|apply List.Forall_nil]].
  - split; cbn; try reflexivity; try (now left).
    exists "/home/me/my repo". split; [reflexivity|]. split; [discriminate|reflexivity].
  - split; cbn; try reflexivity; try exact I; try (now left); try (now right).
    exists "/home/me/fix". split; [reflexivity|]. split; [discriminate|reflexivity].
Qed.

Lemma parseWorktrees_porcelain_witness :
  Forall printable [main_tree; detached_tree] /\
  parseWorktrees (porcelain_text [main_tree; detached_tree]) = [main_tree; detached_tree].
Proof.
  split; [exact listed_trees_printable|].
  exact (parseWorktrees_porcelain [main_tree; detached_tree] listed_trees_printable).
Defined.

Lemma getWorktrees_porcelain_witness :
  "/repo" <> "" /\ Forall printable [main_tree; detached_tree] /\
  fails listing (trace empty_world) (GitRaw "/repo" ["worktree"; "list"; "--porcelain"])
    = None /\
  raw_output listing (trace empty_world) "/repo" ["worktree"; "list"; "--porcelain"]
    = porcelain_text [main_tree; detached_tree] /\
  api_getWorktrees listing "/repo" empty_world =
  (Ok (WtList [main_tree; detached_tree]),
   logged (GitRaw "/repo" ["worktree"; "list"; "--porcelain"]) empty_world).
Proof.
  assert (H1 : "/repo" <> "") by discriminate.
  split; [exact H1|]. split; [exact listed_trees_printable|].
  split; [reflexivity|]. split; [reflexivity|].
  exact (getWorktrees_porcelain listing "/repo" empty_world [main_tree; detached_tree]
           H1 listed_trees_printable eq_refl eq_refl).
Defined.

Lemma routes_reject_missing_fields_witness :
  truthy (Some "") = false /\
  route_fixup calm (Some "/repo") (Some "") empty_world =
  (Ok (bad_request "Repository path and target commit are required"), empty_world).
Proof.
  split; [reflexivity|].
  exact (proj1 (proj2 (proj2 (routes_reject_missing_fields calm empty_world)))
           (Some "/repo") (Some "") (or_intror eq_refl)).
Defined.

Lemma routes_report_failures_witness :
  "/repo" <> "" /\
  fails git_down (trace empty_world) (GitStatus "/repo")
    = Some "fatal: not a git repository" /\
  route_status git_down (Some "/repo") empty_world =
  (Ok (server_error "Failed to get repository status" "fatal: not a git repository"),
   logged (GitStatus "/repo") empty_world).
Proof.
  assert (H1 : "/repo" <> "") by discriminate.
  split; [exact H1|]. split; [reflexivity|].
  exact (proj1 (proj2 (proj2 (proj2 (proj2
           (routes_report_failures git_down empty_world "/repo"
              "fatal: not a git repository" H1))))) eq_refl).
Defined.

Lemma wrappers_throw_route_texts_witness :
  let response := server_error "Failed to rebase" "fatal: not a git repository" in
  (route_rebase git_down (Some "/repo") (Some "abc1234") empty_world).1 = Ok response /\
  (json_or_throw "Failed to rebase" response empty_world).1 = Throw "Failed to rebase" /\
  In "Failed to rebase" ["Repository path and target commit are required"; "Failed to rebase"].
Proof.
  intros response.
  assert (H1 : (route_rebase git_down (Some "/repo") (Some "abc1234") empty_world).1
               = Ok response) by reflexivity.
  assert (H2 : (json_or_throw "Failed to rebase" response empty_world).1
               = Throw "Failed to rebase") by reflexivity.
  split; [exact H1|]. split; [exact H2|].
  exact (proj1 (proj2 (proj2 (proj2 (proj2 (proj2
           (wrappers_throw_route_texts git_down empty_world empty_world
              "Failed to rebase" response (wt_bad_request "")))))))
           (Some "/repo") (Some "abc1234") H1 H2).
Defined.

Lemma loadData_outcome_witness :
  "/repo" <> "" /\
  let out := loadData git_down "/repo" (initial, empty_world) in
  let a := out.2 in
  out.1 = Ok tt /\
  trace a.2 = trace empty_world ++ [GitStatus "/repo"; GitLog "/repo" 50] /\
  loading a.1 = false /\ step a.1 = step initial /\ success a.1 = success initial /\
  selectedFile a.1 = selectedFile initial /\ selectedHunks a.1 = selectedHunks initial /\
  selectedCommit a.1 = selectedCommit initial /\ currentDiff a.1 = currentDiff initial /\
  (error a.1 = None <->
   fails git_down (trace empty_world) (GitStatus "/repo") = None /\
   fails git_down (trace empty_world ++ [GitStatus "/repo"]) (GitLog "/repo" 50) = None /\
   files a.1 <> []).
Proof.
  assert (H1 : "/repo" <> "") by discriminate.
  split; [exact H1|].
  exact (loadData_outcome git_down "/repo" initial empty_world H1).
Defined.

Lemma handleFileSelect_outcome_witness :
  let a := run (handleFileSelect calm "/repo" "a.txt") (initial, empty_world) in
  "/repo" <> "" /\ "a.txt" <> "" /\
  fails calm (trace empty_world) (GitRaw "/repo" (diff_args "a.txt" false)) = None /\
  error a.1 = None.
Proof.
  intros a.
  assert (H1 : "/repo" <> "") by discriminate.
  assert (H2 : "a.txt" <> "") by discriminate.
  repeat (split; [assumption || reflexivity|]).
  exact (proj2 (proj2 (proj2 (proj2 (proj2
           (handleFileSelect_outcome calm "/repo" "a.txt" initial empty_world)))))
           H1 H2 eq_refl).
Defined.



Lemma sequential_coherent_witness :
  let run_of := fold_left (fun a ev => run (dispatch two_files "/repo" ev) a) in
  let a := run_of [ Mounted; FileClicked "a.txt"; HunkClicked 1; PrimaryClicked;
                    CommitClicked "abc1234def5678"; PrimaryClicked ]
                  (initial, empty_world) in
  sequential two_files "/repo" a /\ coherent a.1 /\
  success a.1 = Some "Successfully squashed changes into commit abc1234".
Proof.
  intros run_of a.
  assert (H : sequential two_files "/repo" a) by (do 6 apply seq_step; apply seq_start).
  split; [exact H|]. split; [exact (sequential_coherent two_files "/repo" a H)|].
  vm_compute. reflexivity.
Defined.

Lemma overlapping_click_selects_missing_hunk_witness :
  let before := run (dispatch two_files "/repo" (FileClicked "a.txt"))
                  (run (dispatch two_files "/repo" Mounted) (initial, empty_world)) in
  let a := run (overlapped_session two_files "/repo" "b.txt" 1 "abc1234def5678")
             (before.1, before.2) in
  step before.1 = select_hunks /\
  currentDiff before.1 = Some ("a.txt", parseDiff two_hunk_text) /\
  (1 < length (parseDiff two_hunk_text))%nat /\
  (length (parseDiff (raw_output two_files (trace before.2) "/repo"
                        (diff_args "b.txt" false))) <= 1)%nat /\
  selectedHunks a.1 = [1%nat] /\
  currentDiff a.1 =
    Some ("b.txt", parseDiff (raw_output two_files (trace before.2) "/repo"
                                (diff_args "b.txt" false))) /\
  error a.1 = Some TypeError_lines /\
  trace a.2 = trace before.2 ++ [GitRaw "/repo" (diff_args "b.txt" false)].
Proof.
  intros before a.
  assert (H1 : "/repo" <> "") by discriminate.
  assert (H2 : "b.txt" <> "") by discriminate.
  assert (H3 : "abc1234def5678" <> "") by discriminate.
  assert (H4 : step before.1 = select_hunks) by (vm_compute; reflexivity).
  assert (H5 : currentDiff before.1 = Some ("a.txt", parseDiff two_hunk_text))
    by (vm_compute; reflexivity).
  assert (H6 : files before.1 <> []) by (vm_compute; discriminate).
  assert (H7 : existsb (fun c => String.eqb (hash c) "abc1234def5678") (commits before.1)
               = true) by (vm_compute; reflexivity).
  assert (H8 : (1 < length (parseDiff two_hunk_text))%nat) by (vm_compute; lia).
  assert (H9 : fails two_files (trace before.2) (GitRaw "/repo" (diff_args "b.txt" false))
               = None) by reflexivity.
  assert (H10 : (length (parseDiff (raw_output two_files (trace before.2) "/repo"
                                      (diff_args "b.txt" false))) <= 1)%nat)
    by (vm_compute; lia).
  repeat (split; [assumption|]).
  exact (overlapping_click_selects_missing_hunk two_files "/repo" before.1 before.2
           "a.txt" (parseDiff two_hunk_text) "b.txt" 1%nat "abc1234def5678"
           H1 H2 H3 H4 H5 H6 H7 H8 H9 H10).
Defined.
